(** * Login feature: validation, redirect guard and submission state machine

    A shallow embedding of the TypeScript sources

    - [validation/login.validation.ts]  (module [LoginValidation]),
    - [services/auth.service.ts]        (module [AuthService]),
    - [hooks/useLogin.ts]               (module [UseLogin]),
    - [types/auth.types.ts]             (module [Types]),

    followed by the properties proved about them.

    Strings.  A JavaScript string is a sequence of UTF-16 code units.  The
    embedding uses [string], whose characters are the 8-bit [ascii]; a
    character stands for the code unit of the same number, so the strings
    covered are those over U+0000..U+00FF.  [String.prototype.trim] and
    [String.prototype.toLowerCase] are modelled exactly on that range
    (module [JsString]). *)

From Stdlib Require Import Bool Arith Lia List Ascii String.
Import ListNotations.

Local Open Scope bool_scope.
Local Open Scope list_scope.
Local Open Scope string_scope.
Local Open Scope nat_scope.

(* ================================================================== *)
(** ** JavaScript string primitives used by the sources *)

Module JsString.

(** Code unit of a character. *)
Definition codeUnit (c : ascii) : nat := nat_of_ascii c.

(** [inRange lo hi c]: the code unit of [c] lies in [lo..hi]. *)
Definition inRange (lo hi : ascii) (c : ascii) : bool :=
  (codeUnit lo <=? codeUnit c) && (codeUnit c <=? codeUnit hi).

(** [oneOf set c]: [c] occurs in the string [set]. *)
Fixpoint oneOf (set : string) (c : ascii) : bool :=
  match set with
  | EmptyString => false
  | String d rest => Ascii.eqb c d || oneOf rest c
  end.

(** ECMAScript WhiteSpace and LineTerminator code units below U+0100:
    TAB, LF, VT, FF, CR, SPACE and NO-BREAK SPACE.  These are what [trim]
    strips. *)
Definition isWhiteSpace (c : ascii) : bool :=
  let n := codeUnit c in
  ((9 <=? n) && (n <=? 13)) || (n =? 32) || (n =? 160).

(** [A]..[Z]. *)
Definition isUpperAscii (c : ascii) : bool := inRange "A" "Z" c.

(** Characters below U+0100 that have a lowercase mapping: [A]..[Z] and the
    Latin-1 capitals U+00C0..U+00DE without the multiplication sign U+00D7.
    The lowercase letter is 32 positions up. *)
Definition hasLowerCase (c : ascii) : bool :=
  let n := codeUnit c in
  ((65 <=? n) && (n <=? 90)) ||
  ((192 <=? n) && (n <=? 222) && negb (n =? 215)).

Definition toLowerCaseChar (c : ascii) : ascii :=
  if hasLowerCase c then ascii_of_nat (codeUnit c + 32) else c.

(** [s.toLowerCase()] *)
Fixpoint toLowerCase (s : string) : string :=
  match s with
  | EmptyString => EmptyString
  | String c rest => String (toLowerCaseChar c) (toLowerCase rest)
  end.

(** [s.trimStart()] *)
Fixpoint trimStart (s : string) : string :=
  match s with
  | EmptyString => EmptyString
  | String c rest => if isWhiteSpace c then trimStart rest else s
  end.

(** [s.trimEnd()] *)
Fixpoint trimEnd (s : string) : string :=
  match s with
  | EmptyString => EmptyString
  | String c rest =>
      match trimEnd rest with
      | EmptyString => if isWhiteSpace c then EmptyString else String c EmptyString
      | rest' => String c rest'
      end
  end.

(** [s.trim()] *)
Definition trim (s : string) : string := trimEnd (trimStart s).

(** [s.startsWith(p)] *)
Fixpoint startsWith (s p : string) : bool :=
  match p with
  | EmptyString => true
  | String d p' =>
      match s with
      | EmptyString => false
      | String c s' => Ascii.eqb c d && startsWith s' p'
      end
  end.

(** ['c'.repeat(n)] for a one-character string. *)
Fixpoint repeat (c : ascii) (n : nat) : string :=
  match n with
  | O => EmptyString
  | S n' => String c (repeat c n')
  end.

(** First and last character of a string, when there is one. *)
Definition first (s : string) : option ascii :=
  match s with
  | EmptyString => None
  | String c _ => Some c
  end.

Fixpoint last (s : string) : option ascii :=
  match s with
  | EmptyString => None
  | String c EmptyString => Some c
  | String _ rest => last rest
  end.

(** The string begins, respectively ends, with a white space character. *)
Definition startsWithWhiteSpace (s : string) : bool :=
  match first s with
  | Some c => isWhiteSpace c
  | None => false
  end.

Definition endsWithWhiteSpace (s : string) : bool :=
  match last s with
  | Some c => isWhiteSpace c
  | None => false
  end.

(** Every character of [s] satisfies [p]. *)
Fixpoint forallChars (p : ascii -> bool) (s : string) : bool :=
  match s with
  | EmptyString => true
  | String c rest => p c && forallChars p rest
  end.

End JsString.

(* ================================================================== *)
(** ** Regular expressions without captures, as used by [EMAIL_REGEX]

    A pattern [/^r$/] without flags tests whether the whole input belongs to
    the language of [r]; [RegExp.prototype.test] is modelled by Brzozowski
    derivatives ([test]) and specified by the language [Matches]. *)

Module Regex.

Inductive regex : Type :=
| Void                          (* matches nothing *)
| Eps                           (* the empty string *)
| Class (p : ascii -> bool)     (* one character of a class *)
| Seq (r1 r2 : regex)
| Alt (r1 r2 : regex)
| Star (r : regex).

(** [r+] *)
Definition Plus (r : regex) : regex := Seq r (Star r).

(** [r{n,}] *)
Fixpoint AtLeast (n : nat) (r : regex) : regex :=
  match n with
  | O => Star r
  | S n' => Seq r (AtLeast n' r)
  end.

(** The language of a regular expression. *)
Inductive Matches : regex -> string -> Prop :=
| MEps : Matches Eps ""
| MClass p c : p c = true -> Matches (Class p) (String c "")
| MSeq r1 r2 s1 s2 :
    Matches r1 s1 -> Matches r2 s2 -> Matches (Seq r1 r2) (s1 ++ s2)
| MAltL r1 r2 s : Matches r1 s -> Matches (Alt r1 r2) s
| MAltR r1 r2 s : Matches r2 s -> Matches (Alt r1 r2) s
| MStarNil r : Matches (Star r) ""
| MStarCons r s1 s2 :
    Matches r s1 -> Matches (Star r) s2 -> Matches (Star r) (s1 ++ s2).

Fixpoint nullable (r : regex) : bool :=
  match r with
  | Void => false
  | Eps => true
  | Class _ => false
  | Seq r1 r2 => nullable r1 && nullable r2
  | Alt r1 r2 => nullable r1 || nullable r2
  | Star _ => true
  end.

(** Constructors that drop [Void] and [Eps] operands, so that derivatives
    stay small. *)
Definition seq (r1 r2 : regex) : regex :=
  match r1, r2 with
  | Void, _ => Void
  | _, Void => Void
  | Eps, _ => r2
  | _, Eps => r1
  | _, _ => Seq r1 r2
  end.

Definition alt (r1 r2 : regex) : regex :=
  match r1, r2 with
  | Void, _ => r2
  | _, Void => r1
  | _, _ => Alt r1 r2
  end.

(** Derivative of [r] by the character [c]. *)
Fixpoint deriv (c : ascii) (r : regex) : regex :=
  match r with
  | Void => Void
  | Eps => Void
  | Class p => if p c then Eps else Void
  | Seq r1 r2 =>
      if nullable r1
      then alt (seq (deriv c r1) r2) (deriv c r2)
      else seq (deriv c r1) r2
  | Alt r1 r2 => alt (deriv c r1) (deriv c r2)
  | Star r1 => seq (deriv c r1) (Star r1)
  end.

(** [/^r$/.test(s)] *)
Fixpoint test (r : regex) (s : string) : bool :=
  match s with
  | EmptyString => nullable r
  | String c rest => test (deriv c r) rest
  end.

End Regex.

(* ================================================================== *)
(** ** types/auth.types.ts *)

Module Types.

(** [keyof LoginFormValues] *)
Inductive Field : Type := Email | Password | RememberMe.

Definition Field_eqb (a b : Field) : bool :=
  match a, b with
  | Email, Email | Password, Password | RememberMe, RememberMe => true
  | _, _ => false
  end.

Inductive ValidationErrorType : Type :=
| required | format | minLength | maxLength | custom.

Record FieldError : Type := mkFieldError {
  field : Field;
  message : string;
  type : ValidationErrorType
}.

(** [Partial<Record<keyof LoginCredentials, boolean>>]: each key is absent
    ([None]) or holds a boolean. *)
Record Touched : Type := mkTouched {
  touchedEmail : option bool;
  touchedPassword : option bool;
  touchedRememberMe : option bool
}.

(** The object literal [{}]. *)
Definition noneTouched : Touched := mkTouched None None None.

Record ValidationState : Type := mkValidationState {
  errors : list FieldError;
  isValid : bool;
  touched : Touched
}.

Record LoginFormValues : Type := mkLoginFormValues {
  email : string;
  password : string;
  rememberMe : bool
}.

(** [LoginCredentials] has the fields of [LoginFormValues]. *)
Record LoginCredentials : Type := mkLoginCredentials {
  cred_email : string;
  cred_password : string;
  cred_rememberMe : bool
}.

Inductive AuthErrorCode : Type :=
| INVALID_CREDENTIALS | ACCOUNT_LOCKED | ACCOUNT_DISABLED | TOO_MANY_ATTEMPTS
| SESSION_EXPIRED | NETWORK_ERROR | SERVER_ERROR | VALIDATION_ERROR.

(** [details] is an optional record of unknown values; its entries are kept
    as text. *)
Record AuthError : Type := mkAuthError {
  code : AuthErrorCode;
  auth_message : string;
  details : option (list (string * string))
}.

Inductive UserRole : Type := admin | user | guest.

Record AuthenticatedUser : Type := mkAuthenticatedUser {
  id : string;
  user_email : string;
  name : string;
  role : UserRole;
  avatarUrl : option string
}.

Record LoginResponse : Type := mkLoginResponse {
  token : string;
  refreshToken : string;
  response_user : AuthenticatedUser;
  redirectUrl : option string;
  expiresAt : nat
}.

Inductive SubmissionState : Type := idle | submitting | success | error.

End Types.

(* ================================================================== *)
(** ** validation/login.validation.ts *)

Module LoginValidation.
Import JsString Regex Types.

Record ValidationRule : Type := mkValidationRule {
  test : string -> bool;
  rule_message : string;
  rule_type : ValidationErrorType
}.

Definition isAlpha (c : ascii) : bool := inRange "a" "z" c || inRange "A" "Z" c.
Definition isDigit (c : ascii) : bool := inRange "0" "9" c.

(** [[a-zA-Z0-9._%+-]] *)
Definition localChar (c : ascii) : bool := isAlpha c || isDigit c || oneOf "._%+-" c.
(** [[a-zA-Z0-9.-]] *)
Definition domainChar (c : ascii) : bool := isAlpha c || isDigit c || oneOf ".-" c.
(** [\.] *)
Definition dotChar (c : ascii) : bool := Ascii.eqb c ".".
(** [@] *)
Definition atChar (c : ascii) : bool := Ascii.eqb c "@".

(** [/^[a-zA-Z0-9._%+-]+@[a-zA-Z0-9.-]+\.[a-zA-Z]{2,}$/] *)
Definition EMAIL_REGEX : regex :=
  Seq (Plus (Class localChar))
   (Seq (Class atChar)
    (Seq (Plus (Class domainChar))
     (Seq (Class dotChar)
          (AtLeast 2 (Class isAlpha))))).

Definition emailRules : list ValidationRule :=
  [ {| test := fun value => 0 <? length (trim value);
       rule_message := "Email is required";
       rule_type := required |};
    {| test := fun value => Regex.test EMAIL_REGEX (trim value);
       rule_message := "Please enter a valid email address";
       rule_type := format |};
    {| test := fun value => length (trim value) <=? 254;
       rule_message := "Email must not exceed 254 characters";
       rule_type := maxLength |} ].

Definition passwordRules : list ValidationRule :=
  [ {| test := fun value => 0 <? length value;
       rule_message := "Password is required";
       rule_type := required |};
    {| test := fun value => 8 <=? length value;
       rule_message := "Password must be at least 8 characters";
       rule_type := minLength |};
    {| test := fun value => length value <=? 128;
       rule_message := "Password must not exceed 128 characters";
       rule_type := maxLength |} ].

(** The rule list selected for a field. *)
Definition rulesOf (f : Field) : list ValidationRule :=
  match f with
  | Email => emailRules
  | Password => passwordRules
  | RememberMe => []
  end.

(** The [for (const rule of rules)] loop: the error of the first rule whose
    test fails. *)
Fixpoint firstFailure (f : Field) (value : string) (rules : list ValidationRule)
  : option FieldError :=
  match rules with
  | [] => None
  | rule :: rest =>
      if negb (test rule value)
      then Some {| field := f; message := rule_message rule; type := rule_type rule |}
      else firstFailure f value rest
  end.

Definition validateField (f : Field) (value : string) : option FieldError :=
  firstFailure f value (rulesOf f).

(** [errors.push(e)] when [e] is not null. *)
Definition pushError (errs : list FieldError) (e : option FieldError)
  : list FieldError :=
  match e with
  | Some err => (errs ++ [err])%list
  | None => errs
  end.

Definition validateLoginForm (values : LoginFormValues) : ValidationState :=
  let errors0 := [] in
  let emailError := validateField Email (email values) in
  let errors1 := pushError errors0 emailError in
  let passwordError := validateField Password (password values) in
  let errors2 := pushError errors1 passwordError in
  {| errors := errors2;
     isValid := List.length errors2 =? 0;
     touched := noneTouched |}.

Definition sanitizeEmail (email : string) : string :=
  toLowerCase (trim email).

Definition canSubmitForm (values : LoginFormValues) (isSubmitting : bool) : bool :=
  if isSubmitting then false
  else
    let validation := validateLoginForm values in
    isValid validation.

End LoginValidation.

(* ================================================================== *)
(** ** services/auth.service.ts: the redirect guard *)

Module AuthService.
Import JsString.

Definition allowedPaths : list string :=
  ["/dashboard"; "/profile"; "/settings"; "/"].

Definition isValidRedirectUrl (url : string) : bool :=
  if (url =? "")%string || (length (trim url) =? 0) then false
  else if startsWith url "http://" || startsWith url "https://" || startsWith url "//"
  then false
  else if startsWith url "javascript:" || startsWith url "data:" then false
  else if negb (startsWith url "/") then false
  else existsb (fun path => (url =? path)%string || startsWith url (path ++ "/")) allowedPaths.

(** A string is truthy when it is not empty. *)
Definition truthy (s : string) : bool := negb (s =? "")%string.

(** [redirectUrl] may be [undefined]; [defaultUrl] is an optional parameter
    whose default is ['/dashboard']. *)
Definition getSafeRedirectUrl (redirectUrl : option string) (defaultUrl : option string)
  : string :=
  let defaultUrl :=
    match defaultUrl with
    | Some d => d
    | None => "/dashboard"
    end in
  match redirectUrl with
  | Some url => if truthy url && isValidRedirectUrl url then url else defaultUrl
  | None => defaultUrl
  end.

End AuthService.

(* ================================================================== *)
(** ** hooks/useLogin.ts: the login submission state machine

    One instance of the hook is a record of its React state cells
    ([values], [errors], [touched], [submissionState], [authError]) and of
    the ref [isSubmittingRef].  Handlers run to completion one after the
    other, each on the state left by the previous one; a handler's state
    updates are applied together when it returns.

    The authentication client and the caller's callbacks are outside the
    hook.  What the hook does to them is recorded in [trace]; the calls of
    [login] whose promise has not settled yet are listed in [pending].  The
    part of [handleSubmit] after [await] runs when the environment settles a
    pending call ([Resolve], [Reject]).  The options stay the same during
    the life of an instance.  The success callback runs inside the [try]
    block: when it throws, the [catch] block runs ([ResolveThrows]).  The
    error callback runs inside the [catch] block, where its throwing changes
    nothing of the state. *)

Module UseLogin.
Import JsString Types LoginValidation.

(** The options of the hook: whether the optional callbacks are supplied,
    and the two validation switches. *)
Record UseLoginOptions : Type := mkUseLoginOptions {
  onSuccess : bool;
  onError : bool;
  validateOnChange : bool;
  validateOnBlur : bool
}.

(** [useLogin()] without options: no callbacks, [validateOnChange = false],
    [validateOnBlur = true]. *)
Definition defaultOptions : UseLoginOptions :=
  {| onSuccess := false; onError := false;
     validateOnChange := false; validateOnBlur := true |}.

(** What the hook does to its environment. *)
Inductive Effect : Type :=
| LoginCall (call : nat) (credentials : LoginCredentials)
| OnSuccess (response : LoginResponse)
| OnError (err : AuthError).

Record HookState : Type := mkHookState {
  values : LoginFormValues;
  errors : list FieldError;
  touched : Touched;
  submissionState : SubmissionState;
  authError : option AuthError;
  isSubmittingRef : bool;
  pending : list nat;
  trace : list Effect
}.

Definition INITIAL_FORM_VALUES : LoginFormValues :=
  {| email := ""; password := ""; rememberMe := false |}.

(** The state of a freshly mounted hook. *)
Definition initialState : HookState :=
  {| values := INITIAL_FORM_VALUES;
     errors := [];
     touched := noneTouched;
     submissionState := idle;
     authError := None;
     isSubmittingRef := false;
     pending := [];
     trace := [] |}.

(** State setters. *)
Definition setValues (v : LoginFormValues) (st : HookState) : HookState :=
  mkHookState v (errors st) (touched st) (submissionState st) (authError st)
              (isSubmittingRef st) (pending st) (trace st).
Definition setErrors (e : list FieldError) (st : HookState) : HookState :=
  mkHookState (values st) e (touched st) (submissionState st) (authError st)
              (isSubmittingRef st) (pending st) (trace st).
Definition setTouched (t : Touched) (st : HookState) : HookState :=
  mkHookState (values st) (errors st) t (submissionState st) (authError st)
              (isSubmittingRef st) (pending st) (trace st).
Definition setSubmissionState (s : SubmissionState) (st : HookState) : HookState :=
  mkHookState (values st) (errors st) (touched st) s (authError st)
              (isSubmittingRef st) (pending st) (trace st).
Definition setAuthError (a : option AuthError) (st : HookState) : HookState :=
  mkHookState (values st) (errors st) (touched st) (submissionState st) a
              (isSubmittingRef st) (pending st) (trace st).
(** [isSubmittingRef.current = b] *)
Definition setIsSubmittingRef (b : bool) (st : HookState) : HookState :=
  mkHookState (values st) (errors st) (touched st) (submissionState st) (authError st)
              b (pending st) (trace st).
Definition setPending (p : list nat) (st : HookState) : HookState :=
  mkHookState (values st) (errors st) (touched st) (submissionState st) (authError st)
              (isSubmittingRef st) p (trace st).
(** Append an effect to the trace. *)
Definition emit (e : Effect) (st : HookState) : HookState :=
  mkHookState (values st) (errors st) (touched st) (submissionState st) (authError st)
              (isSubmittingRef st) (pending st) (trace st ++ [e])%list.

(** The credentials passed to [login], in call order. *)
Fixpoint loginCalls (t : list Effect) : list LoginCredentials :=
  match t with
  | [] => []
  | LoginCall _ c :: rest => c :: loginCalls rest
  | _ :: rest => loginCalls rest
  end.

(** A value handed to [handleChange]: [string | boolean]. *)
Inductive FieldValue : Type :=
| StringValue (s : string)
| BooleanValue (b : bool).

(** [values[field]] *)
Definition getField (f : Field) (v : LoginFormValues) : FieldValue :=
  match f with
  | Email => StringValue (email v)
  | Password => StringValue (password v)
  | RememberMe => BooleanValue (rememberMe v)
  end.

(** [{ ...prev, [field]: value }].  The state cell is declared
    [LoginFormValues], so the update is defined for a value of the field's
    declared type: a string for [email] and [password], a boolean for
    [rememberMe]. *)
Definition setField (f : Field) (value : FieldValue) (prev : LoginFormValues)
  : option LoginFormValues :=
  match f, value with
  | Email, StringValue s =>
      Some {| email := s; password := password prev; rememberMe := rememberMe prev |}
  | Password, StringValue s =>
      Some {| email := email prev; password := s; rememberMe := rememberMe prev |}
  | RememberMe, BooleanValue b =>
      Some {| email := email prev; password := password prev; rememberMe := b |}
  | _, _ => None
  end.

(** [{ ...prev, [field]: true }] *)
Definition touch (f : Field) (prev : Touched) : Touched :=
  match f with
  | Email => mkTouched (Some true) (touchedPassword prev) (touchedRememberMe prev)
  | Password => mkTouched (touchedEmail prev) (Some true) (touchedRememberMe prev)
  | RememberMe => mkTouched (touchedEmail prev) (touchedPassword prev) (Some true)
  end.

(** [{ email: true, password: true, rememberMe: true }] *)
Definition allTouched : Touched := mkTouched (Some true) (Some true) (Some true).

(** [prev.filter((err) => err.field !== field)] *)
Definition withoutField (f : Field) (prev : list FieldError) : list FieldError :=
  filter (fun err => negb (Field_eqb (field err) f)) prev.

(** [fieldError ? [...filtered, fieldError] : filtered] *)
Definition replaceFieldError (f : Field) (fieldError : option FieldError)
  (prev : list FieldError) : list FieldError :=
  let filtered := withoutField f prev in
  match fieldError with
  | Some e => (filtered ++ [e])%list
  | None => filtered
  end.

(** [handleChange(field, value)]; [None] when [value] is not of the declared
    type of [field]. *)
Definition handleChange (opts : UseLoginOptions) (f : Field) (value : FieldValue)
  (st : HookState) : option HookState :=
  let stored :=
    match f, value with
    | Email, StringValue s => StringValue (sanitizeEmail s)
    | _, _ => value
    end in
  match setField f stored (values st) with
  | None => None
  | Some values' =>
      let st1 := setValues values' st in
      (* Clear auth error on change *)
      let st2 :=
        match authError st with
        | Some _ => setAuthError None st1
        | None => st1
        end in
      (* Validate on change if enabled *)
      Some
        (if validateOnChange opts then
           match value with
           | StringValue s =>
               let fieldError := validateField f s in
               setErrors (replaceFieldError f fieldError (errors st2)) st2
           | BooleanValue _ =>
               setErrors (withoutField f (errors st2)) st2
           end
         else st2)
  end.

(** [handleBlur(field)] *)
Definition handleBlur (opts : UseLoginOptions) (f : Field) (st : HookState)
  : HookState :=
  (* Mark field as touched *)
  let st1 := setTouched (touch f (touched st)) st in
  (* Validate on blur if enabled *)
  if validateOnBlur opts then
    match getField f (values st) with
    | StringValue s =>
        let fieldError := validateField f s in
        setErrors (replaceFieldError f fieldError (errors st1)) st1
    | BooleanValue _ => st1
    end
  else st1.

(** The call [login({email, password, rememberMe})]: the client is invoked
    and its promise is outstanding until the environment settles it. *)
Definition callLogin (credentials : LoginCredentials) (st : HookState) : HookState :=
  let call := List.length (loginCalls (trace st)) in
  setPending (pending st ++ [call])%list (emit (LoginCall call credentials) st).

(** [handleSubmit(e)] up to [await login(...)].  [e.preventDefault()] acts
    on the event only. *)
Definition handleSubmit (st : HookState) : HookState :=
  (* Prevent duplicate submissions *)
  if isSubmittingRef st then st
  else
    (* Validate entire form *)
    let validation := validateLoginForm (values st) in
    let st1 := setErrors (Types.errors validation) st in
    (* Mark all fields as touched *)
    let st2 := setTouched allTouched st1 in
    if negb (isValid validation) then setSubmissionState error st2
    else
      (* Start submission *)
      let st3 := setIsSubmittingRef true st2 in
      let st4 := setSubmissionState submitting st3 in
      let st5 := setAuthError None st4 in
      callLogin {| cred_email := email (values st);
                   cred_password := password (values st);
                   cred_rememberMe := rememberMe (values st) |} st5.

(** [handleSubmit] after [await], when [login] resolved with [response] and
    the success callback, if any, returned: the rest of the [try] block,
    then [finally]. *)
Definition loginResolved (opts : UseLoginOptions) (response : LoginResponse)
  (st : HookState) : HookState :=
  let st1 := setSubmissionState success st in
  let st2 := if onSuccess opts then emit (OnSuccess response) st1 else st1 in
  setIsSubmittingRef false st2.

(** [handleSubmit] after [await], when [login] rejected with [err]: the
    [catch] block, then [finally]. *)
Definition loginRejected (opts : UseLoginOptions) (err : AuthError)
  (st : HookState) : HookState :=
  let authErr := err in
  let st1 := setAuthError (Some authErr) st in
  let st2 := setSubmissionState error st1 in
  let st3 := if onError opts then emit (OnError authErr) st2 else st2 in
  setIsSubmittingRef false st3.

(** [handleSubmit] after [await], when [login] resolved with [response] and
    the success callback threw [thrown]: the [try] block up to the call of
    the callback, then the [catch] block on [thrown] and [finally]. *)
Definition successCallbackThrew (opts : UseLoginOptions) (response : LoginResponse)
  (thrown : AuthError) (st : HookState) : HookState :=
  let st1 := setSubmissionState success st in
  let st2 := emit (OnSuccess response) st1 in
  loginRejected opts thrown st2.

(** [resetForm()] *)
Definition resetForm (st : HookState) : HookState :=
  let st1 := setValues INITIAL_FORM_VALUES st in
  let st2 := setErrors [] st1 in
  let st3 := setTouched noneTouched st2 in
  let st4 := setSubmissionState idle st3 in
  let st5 := setAuthError None st4 in
  setIsSubmittingRef false st5.

Definition SubmissionState_eqb (a b : SubmissionState) : bool :=
  match a, b with
  | idle, idle | submitting, submitting | success, success | error, error => true
  | _, _ => false
  end.

(** The computed values returned by the hook. *)
Definition canSubmit (st : HookState) : bool :=
  canSubmitForm (values st) (SubmissionState_eqb (submissionState st) submitting).
Definition isSubmitting (st : HookState) : bool :=
  SubmissionState_eqb (submissionState st) submitting.

(** What can happen to a hook instance. *)
Inductive Event : Type :=
| Change (f : Field) (value : FieldValue)
| Blur (f : Field)
| Submit
| Reset
| Resolve (call : nat) (response : LoginResponse)
| Reject (call : nat) (err : AuthError)
| ResolveThrows (call : nat) (response : LoginResponse) (thrown : AuthError).

Definition isPending (call : nat) (st : HookState) : bool :=
  existsb (Nat.eqb call) (pending st).

(** The promise of [call] has settled. *)
Definition settle (call : nat) (st : HookState) : HookState :=
  setPending (filter (fun c => negb (c =? call)) (pending st)) st.

(** One step of the machine; [None] when the event is not one the model
    covers in [st]: a change whose value is not of the field's declared type
    (the form passes [e.target.value] for [email] and [password] and
    [e.target.checked] for [rememberMe]), the settling of a call that is not
    outstanding, or a throwing success callback when none was supplied. *)
Definition step (opts : UseLoginOptions) (ev : Event) (st : HookState)
  : option HookState :=
  match ev with
  | Change f value => handleChange opts f value st
  | Blur f => Some (handleBlur opts f st)
  | Submit => Some (handleSubmit st)
  | Reset => Some (resetForm st)
  | Resolve call response =>
      if isPending call st then Some (loginResolved opts response (settle call st))
      else None
  | Reject call err =>
      if isPending call st then Some (loginRejected opts err (settle call st))
      else None
  | ResolveThrows call response thrown =>
      if isPending call st && onSuccess opts
      then Some (successCallbackThrew opts response thrown (settle call st))
      else None
  end.

(** A sequence of events, from left to right. *)
Fixpoint run (opts : UseLoginOptions) (evs : list Event) (st : HookState)
  : option HookState :=
  match evs with
  | [] => Some st
  | ev :: rest =>
      match step opts ev st with
      | Some st' => run opts rest st'
      | None => None
      end
  end.

(** The states reachable from the freshly mounted hook by events that
    satisfy [allowed] in the state where they happen. *)
Inductive reachableBy (allowed : HookState -> Event -> Prop) (opts : UseLoginOptions)
  : HookState -> Prop :=
| reach_initial : reachableBy allowed opts initialState
| reach_step st ev st' :
    reachableBy allowed opts st ->
    allowed st ev ->
    step opts ev st = Some st' ->
    reachableBy allowed opts st'.

(** Every event is allowed. *)
Definition anyEvent (st : HookState) (ev : Event) : Prop := True.

Definition reachable (opts : UseLoginOptions) : HookState -> Prop :=
  reachableBy anyEvent opts.

(** [resetForm] is not called while a call of [login] is outstanding. *)
Definition noResetInFlight (st : HookState) (ev : Event) : Prop :=
  ev = Reset -> pending st = [].

End UseLogin.

(* ================================================================== *)
(** ** Sample runs of the hook *)

Module Scenarios.
Import Types UseLogin.

(** The user types an email address and a password. *)
Definition fillForm (e p : string) : list Event :=
  [Change Email (StringValue e); Change Password (StringValue p)].

(** The state after typing valid credentials into a fresh form. *)
Definition filledState : HookState :=
  setValues {| email := "user@example.com";
               password := "password123";
               rememberMe := false |} initialState.

(** The same, after a submit: a call of [login] is outstanding. *)
Definition submittedState : HookState := handleSubmit filledState.

(** The failure the authentication service reports for status 401. *)
Definition invalidCredentials : AuthError :=
  {| code := INVALID_CREDENTIALS;
     auth_message := "Invalid email or password";
     details := None |}.

(** A submission is started, the form is reset while the call is
    outstanding, the user types credentials again and submits. *)
Definition resubmitAfterReset : list Event :=
  (fillForm "user@example.com" "password123" ++ [Submit; Reset]
   ++ fillForm "user@example.com" "password123" ++ [Submit])%list.

End Scenarios.

(* ================================================================== *)
(** ** validation/login.validation.ts: looking up the error of a field *)

Module FieldErrors.
Import Types.

(** [errors.find((err) => err.field === field)], then its message. *)
Definition getFieldError (errors : list FieldError) (f : Field) : option string :=
  let error := find (fun err => Field_eqb (field err) f) errors in
  match error with
  | Some err => Some (message err)
  | None => None
  end.

(** [errors.some((err) => err.field === field)] *)
Definition hasFieldError (errors : list FieldError) (f : Field) : bool :=
  existsb (fun err => Field_eqb (field err) f) errors.

End FieldErrors.

(* ================================================================== *)
(** ** hooks/useLogin.ts: the error shown for a field *)

Module UseLoginView.
Import Types UseLogin.

(** [touched[field]] *)
Definition touchedOf (t : Touched) (f : Field) : option bool :=
  match f with
  | Email => touchedEmail t
  | Password => touchedPassword t
  | RememberMe => touchedRememberMe t
  end.

(** Truthiness of [touched[field]]: [undefined] and [false] are falsy. *)
Definition isTouched (t : Touched) (f : Field) : bool :=
  match touchedOf t f with
  | Some b => b
  | None => false
  end.

(** The hook's [getFieldError(field)] *)
Definition getFieldError (st : HookState) (f : Field) : option string :=
  (* Only show error if field has been touched *)
  if negb (isTouched (touched st) f) then None
  else
    let error := find (fun err => Field_eqb (field err) f) (errors st) in
    match error with
    | Some err => Some (message err)
    | None => None
    end.

(** The hook's [hasFieldError(field)]: [touched[field] === true && ...] *)
Definition hasFieldError (st : HookState) (f : Field) : bool :=
  match touchedOf (touched st) f with
  | Some true => existsb (fun err => Field_eqb (field err) f) (errors st)
  | _ => false
  end.

End UseLoginView.

(* ================================================================== *)
(** ** services/auth.service.ts: the authentication client

    [fetch] and [response.json()] belong to the environment.  The functions
    below take what the environment answered and return how the promise of
    the function settles.  A timeout is the environment failing [fetch] with
    an error named [AbortError], which is what aborting the request through
    its signal does. *)

Module AuthClient.
Import Types.

(** The error data handed to [createAuthError]; only its [message] property
    is read, taken as a string when present. *)
Record ErrorData : Type := mkErrorData {
  data_message : option string
}.

(** [data.message as string || 'Network error occurred'] *)
Definition messageOr (data : ErrorData) (fallback : string) : string :=
  match data_message data with
  | Some m => if (m =? "")%string then fallback else m
  | None => fallback
  end.

(** [errorMap[status]] on an object literal written as its list of
    entries. *)
Fixpoint lookupStatus (status : nat) (entries : list (nat * AuthError))
  : option AuthError :=
  match entries with
  | [] => None
  | (key, e) :: rest => if key =? status then Some e else lookupStatus status rest
  end.

Definition createAuthError (status : nat) (data : ErrorData) : AuthError :=
  let errorMap :=
    [ (400, mkAuthError VALIDATION_ERROR "Invalid login credentials format" None);
      (401, mkAuthError INVALID_CREDENTIALS "Invalid email or password" None);
      (403, mkAuthError ACCOUNT_DISABLED "Your account has been disabled" None);
      (408, mkAuthError NETWORK_ERROR "Request timeout - please try again" None);
      (423, mkAuthError ACCOUNT_LOCKED
              "Your account has been locked due to too many failed attempts" None);
      (429, mkAuthError TOO_MANY_ATTEMPTS
              "Too many login attempts - please try again later" None);
      (500, mkAuthError SERVER_ERROR "Server error - please try again later" None);
      (0, mkAuthError NETWORK_ERROR (messageOr data "Network error occurred") None) ] in
  match lookupStatus status errorMap with
  | Some e => e
  | None => mkAuthError SERVER_ERROR "An unexpected error occurred" None
  end.

(** An instance of [Error]: its [name], and whether it is an instance of
    [TypeError]. *)
Record JsError : Type := mkJsError {
  error_name : string;
  isTypeError : bool
}.

(** A value that is thrown: an [AuthError] object, which is no instance of
    [Error], or an [Error]. *)
Inductive Thrown : Type :=
| ThrownAuthError (e : AuthError)
| ThrownError (err : JsError).

(** How a promise settles. *)
Inductive Settled (T : Type) : Type :=
| Resolved (value : T)
| Rejected (reason : Thrown).
Arguments Resolved {T} value.
Arguments Rejected {T} reason.

(** A parsed JSON body: [null], or a value together with its [message]
    property when it has one. *)
Inductive JsonValue (T : Type) : Type :=
| JsonNull
| JsonData (value : T) (data : ErrorData).
Arguments JsonNull {T}.
Arguments JsonData {T} value data.

(** The answer of [response.json()]. *)
Inductive JsonOutcome (T : Type) : Type :=
| Parsed (body : JsonValue T)
| ParseFailed (err : JsError).
Arguments Parsed {T} body.
Arguments ParseFailed {T} err.

(** The answer of [fetch]: a response with its status and what reading its
    body as JSON gives, or a failure. *)
Inductive FetchOutcome (T : Type) : Type :=
| Responded (status : nat) (json : JsonOutcome T)
| Failed (err : JsError).
Arguments Responded {T} status json.
Arguments Failed {T} err.

(** [response.ok]: the status is in 200..299. *)
Definition responseOk (status : nat) : bool := (200 <=? status) && (status <=? 299).

(** The [catch] block of [fetchWithTimeout]: what it throws for the value
    it caught. *)
Definition rethrow (caught : Thrown) : Thrown :=
  match caught with
  | ThrownError err =>
      if (error_name err =? "AbortError")%string then
        ThrownAuthError (createAuthError 408 (mkErrorData (Some "Request timeout")))
      else if isTypeError err then
        ThrownAuthError
          (createAuthError 0 (mkErrorData (Some "Network error - please check your connection")))
      else caught
  | ThrownAuthError _ => caught
  end.

(** Reading [data.message] of a [null] body. *)
Definition nullPropertyError : JsError := mkJsError "TypeError" true.

(** [await response.json().catch(() => ({}))], as [createAuthError] reads
    it: [None] for a [null] body, the empty object when parsing failed. *)
Definition errorDataOf {T : Type} (json : JsonOutcome T) : option ErrorData :=
  match json with
  | Parsed JsonNull => None
  | Parsed (JsonData _ data) => Some data
  | ParseFailed _ => Some (mkErrorData None)
  end.

(** [fetchWithTimeout(url, options)] *)
Definition fetchWithTimeout {T : Type} (outcome : FetchOutcome T)
  : Settled (JsonValue T) :=
  match outcome with
  | Responded status json =>
      if negb (responseOk status) then
        match errorDataOf json with
        | None => Rejected (rethrow (ThrownError nullPropertyError))
        | Some data => Rejected (rethrow (ThrownAuthError (createAuthError status data)))
        end
      else
        match json with
        | Parsed body => Resolved body
        | ParseFailed err => Rejected (rethrow (ThrownError err))
        end
  | Failed err => Rejected (rethrow (ThrownError err))
  end.

(** [login(credentials)]: the response is returned and an error thrown again
    as it is. *)
Definition login {T : Type} (outcome : FetchOutcome T) : Settled (JsonValue T) :=
  match fetchWithTimeout outcome with
  | Resolved response => Resolved response
  | Rejected caught => Rejected caught
  end.

End AuthClient.

(* ================================================================== *)
(** ** hooks/usePasswordVisibility.ts *)

Module UsePasswordVisibility.

Inductive PasswordVisibility : Type := visible | hidden.

(** The state after [useState('hidden')]. *)
Definition initialVisibility : PasswordVisibility := hidden.

(** [toggleVisibility()] *)
Definition toggleVisibility (prev : PasswordVisibility) : PasswordVisibility :=
  match prev with
  | hidden => visible
  | visible => hidden
  end.

Definition isVisible (visibility : PasswordVisibility) : bool :=
  match visibility with
  | visible => true
  | hidden => false
  end.

Definition inputType (visibility : PasswordVisibility) : string :=
  if isVisible visibility then "text" else "password".

Definition toggleAriaLabel (visibility : PasswordVisibility) : string :=
  if isVisible visibility then "Hide password" else "Show password".

(** [n] calls of [toggleVisibility]. *)
Fixpoint toggles (n : nat) (visibility : PasswordVisibility) : PasswordVisibility :=
  match n with
  | O => visibility
  | S n' => toggles n' (toggleVisibility visibility)
  end.

End UsePasswordVisibility.

(* ================================================================== *)
(** ** Character maps that a regular expression cannot tell apart *)

Module RegexClasses.
Import Regex.

(** Every character class of [r] gives the same answer on [c] and [f c]. *)
Fixpoint respects (f : ascii -> ascii) (r : regex) : Prop :=
  match r with
  | Void | Eps => True
  | Class p => forall c, p (f c) = p c
  | Seq r1 r2 | Alt r1 r2 => respects f r1 /\ respects f r2
  | Star r1 => respects f r1
  end.

End RegexClasses.

(* ================================================================== *)
(** ** Notions used to state invariants of the hook *)

Module Invariants.
Import Types LoginValidation UseLogin.

(** An error that [validateField] can produce for its field. *)
Definition fromValidator (e : FieldError) : Prop :=
  exists v, validateField (field e) v = Some e.

(** The events of a run are all changes of a field. *)
Definition onlyChanges (evs : list Event) : Prop :=
  Forall (fun ev => match ev with Change _ _ => True | _ => False end) evs.

End Invariants.

(* ================================================================== *)
(** * Properties *)

Import JsString Regex Types LoginValidation AuthService UseLogin Scenarios.

(** ** Strings *)

Section StringFacts.

Lemma append_empty_r (s : string) : s ++ "" = s.
Proof. induction s as [|c s IH]; simpl; [reflexivity | now rewrite IH]. Qed.

Lemma append_assoc (s1 s2 s3 : string) : (s1 ++ s2) ++ s3 = s1 ++ (s2 ++ s3).
Proof. induction s1 as [|c s1 IH]; simpl; [reflexivity | now rewrite IH]. Qed.

Lemma append_eq_empty (s1 s2 : string) : s1 ++ s2 = "" -> s1 = "" /\ s2 = "".
Proof. destruct s1; simpl; [auto | discriminate]. Qed.

Lemma append_eq_String (s1 s2 : string) c s :
  s1 ++ s2 = String c s ->
  (s1 = "" /\ s2 = String c s) \/ (exists s1', s1 = String c s1' /\ s = s1' ++ s2).
Proof.
  destruct s1 as [|d s1]; simpl; intros H.
  - left; auto.
  - right. inversion H; subst. now exists s1.
Qed.

Lemma length_zero_empty (s : string) : length s = 0 <-> s = "".
Proof. destruct s; simpl; split; intros H; try reflexivity; discriminate. Qed.

End StringFacts.

(** ** Regular expressions: [test] decides [Matches] *)

Section RegexFacts.

Lemma Matches_Void s : ~ Matches Void s.
Proof. intros H; inversion H. Qed.

Lemma Matches_Eps s : Matches Eps s <-> s = "".
Proof. split; intros H; [now inversion H | subst; constructor]. Qed.

Lemma Matches_Class p s :
  Matches (Class p) s <-> exists c, s = String c "" /\ p c = true.
Proof.
  split.
  - intros H; inversion H; subst; eauto.
  - intros (c & -> & Hc); now constructor.
Qed.

Lemma Matches_Seq r1 r2 s :
  Matches (Seq r1 r2) s <->
  exists s1 s2, s = s1 ++ s2 /\ Matches r1 s1 /\ Matches r2 s2.
Proof.
  split.
  - intros H; inversion H; subst; eauto.
  - intros (s1 & s2 & -> & H1 & H2); now constructor.
Qed.

Lemma Matches_Alt r1 r2 s :
  Matches (Alt r1 r2) s <-> Matches r1 s \/ Matches r2 s.
Proof.
  split.
  - intros H; inversion H; subst; auto.
  - intros [H | H]; [now apply MAltL | now apply MAltR].
Qed.

Lemma Seq_Void_l r s : Matches (Seq Void r) s <-> Matches Void s.
Proof.
  rewrite Matches_Seq. split.
  - intros (s1 & s2 & _ & H & _). inversion H.
  - intros H; inversion H.
Qed.

Lemma Seq_Void_r r s : Matches (Seq r Void) s <-> Matches Void s.
Proof.
  rewrite Matches_Seq. split.
  - intros (s1 & s2 & _ & _ & H). inversion H.
  - intros H; inversion H.
Qed.

Lemma Seq_Eps_l r s : Matches (Seq Eps r) s <-> Matches r s.
Proof.
  rewrite Matches_Seq. split.
  - intros (s1 & s2 & -> & H1 & H2). apply Matches_Eps in H1. now subst.
  - intros H. exists "", s. repeat split; [constructor | exact H].
Qed.

Lemma Seq_Eps_r r s : Matches (Seq r Eps) s <-> Matches r s.
Proof.
  rewrite Matches_Seq. split.
  - intros (s1 & s2 & -> & H1 & H2). apply Matches_Eps in H2. subst.
    now rewrite append_empty_r.
  - intros H. exists s, "". rewrite append_empty_r. repeat split; [exact H | constructor].
Qed.

Lemma Alt_Void_l r s : Matches (Alt Void r) s <-> Matches r s.
Proof.
  rewrite Matches_Alt. split; [intros [H | H]; [inversion H | exact H] | auto].
Qed.

Lemma Alt_Void_r r s : Matches (Alt r Void) s <-> Matches r s.
Proof.
  rewrite Matches_Alt. split; [intros [H | H]; [exact H | inversion H] | auto].
Qed.

Lemma Matches_seq r1 r2 s : Matches (seq r1 r2) s <-> Matches (Seq r1 r2) s.
Proof.
  destruct r1, r2; simpl;
    first [ reflexivity
          | symmetry; apply Seq_Void_l
          | symmetry; apply Seq_Void_r
          | symmetry; apply Seq_Eps_l
          | symmetry; apply Seq_Eps_r ].
Qed.

Lemma Matches_alt r1 r2 s : Matches (alt r1 r2) s <-> Matches (Alt r1 r2) s.
Proof.
  destruct r1, r2; simpl;
    first [ reflexivity
          | symmetry; apply Alt_Void_l
          | symmetry; apply Alt_Void_r ].
Qed.

Lemma nullable_Matches r : nullable r = true <-> Matches r "".
Proof.
  induction r as [| |p|r1 IH1 r2 IH2|r1 IH1 r2 IH2|r IH]; simpl.
  - split; [discriminate | intros H; inversion H].
  - split; [constructor | reflexivity].
  - split; [discriminate | intros H; inversion H].
  - rewrite andb_true_iff, IH1, IH2, Matches_Seq. split.
    + intros [H1 H2]. exists "", "". auto.
    + intros (s1 & s2 & E & H1 & H2). symmetry in E.
      apply append_eq_empty in E as [-> ->]. auto.
  - rewrite orb_true_iff, IH1, IH2, Matches_Alt. tauto.
  - split; [constructor | reflexivity].
Qed.

Lemma Matches_Star_String r c s :
  Matches (Star r) (String c s) ->
  exists s1 s2, s = s1 ++ s2 /\ Matches r (String c s1) /\ Matches (Star r) s2.
Proof.
  intros H. remember (Star r) as r' eqn:Er. remember (String c s) as w eqn:Ew.
  revert s Ew.
  induction H as [| | | | | |r0 s1 s2 H1 _ H2 IH2]; try discriminate.
  inversion Er; subst r0. intros s E.
  apply append_eq_String in E as [[-> E] | (s1' & -> & ->)].
  - apply IH2; auto.
  - exists s1', s2. auto.
Qed.

Lemma deriv_Matches r : forall c s, Matches (deriv c r) s <-> Matches r (String c s).
Proof.
  induction r as [| |p|r1 IH1 r2 IH2|r1 IH1 r2 IH2|r IH]; intros c s; simpl.
  - split; intros H; inversion H.
  - split; intros H; inversion H.
  - rewrite Matches_Class. destruct (p c) eqn:Hp.
    + rewrite Matches_Eps. split.
      * intros ->. now exists c.
      * intros (d & E & _). now inversion E.
    + split; [intros H; inversion H|].
      intros (d & E & Hd). inversion E; subst. congruence.
  - assert (Hseq : Matches (seq (deriv c r1) r2) s <->
                   exists s1 s2, s = s1 ++ s2 /\ Matches r1 (String c s1) /\ Matches r2 s2).
    { rewrite Matches_seq, Matches_Seq. split.
      - intros (s1 & s2 & E & H1 & H2). exists s1, s2. rewrite <- IH1. auto.
      - intros (s1 & s2 & E & H1 & H2). exists s1, s2. rewrite IH1. auto. }
    rewrite (Matches_Seq r1 r2 (String c s)).
    destruct (nullable r1) eqn:Hn.
    + rewrite Matches_alt, Matches_Alt, Hseq, IH2. split.
      * intros [(s1 & s2 & -> & H1 & H2) | H].
        -- exists (String c s1), s2. auto.
        -- exists "", (String c s). repeat split; auto. now apply nullable_Matches.
      * intros (s1 & s2 & E & H1 & H2). symmetry in E.
        apply append_eq_String in E as [[-> ->] | (s1' & -> & ->)].
        -- right; auto.
        -- left. eauto.
    + rewrite Hseq. split.
      * intros (s1 & s2 & -> & H1 & H2). exists (String c s1), s2. auto.
      * intros (s1 & s2 & E & H1 & H2). symmetry in E.
        apply append_eq_String in E as [[-> ->] | (s1' & -> & ->)].
        -- apply nullable_Matches in H1. congruence.
        -- eauto.
  - rewrite Matches_alt, !Matches_Alt, IH1, IH2. tauto.
  - rewrite Matches_seq, Matches_Seq. split.
    + intros (s1 & s2 & -> & H1 & H2). apply IH in H1.
      change (String c (s1 ++ s2)) with (String c s1 ++ s2). now constructor.
    + intros H. apply Matches_Star_String in H as (s1 & s2 & -> & H1 & H2).
      exists s1, s2. rewrite IH. auto.
Qed.

(** [test] is membership in the language. *)
Lemma test_Matches s : forall r, Regex.test r s = true <-> Matches r s.
Proof.
  induction s as [|c s IH]; intros r; simpl.
  - apply nullable_Matches.
  - rewrite IH. apply deriv_Matches.
Qed.

(** Repetitions of one character class. *)
Lemma Matches_Star_Class p s :
  Matches (Star (Class p)) s <-> forallChars p s = true.
Proof.
  split.
  - intros H. remember (Star (Class p)) as r eqn:Er.
    induction H as [| | | | | |r0 s1 s2 H1 _ H2 IH2]; try discriminate.
    + reflexivity.
    + inversion Er; subst r0. apply Matches_Class in H1 as (c & -> & Hc).
      simpl. rewrite Hc. now apply IH2.
  - induction s as [|c s IH]; simpl; intros H; [constructor|].
    apply andb_true_iff in H as [Hc Hs].
    change (String c s) with (String c "" ++ s).
    constructor; [now constructor | now apply IH].
Qed.

Lemma Matches_Plus_Class p s :
  Matches (Plus (Class p)) s <-> s <> "" /\ forallChars p s = true.
Proof.
  unfold Plus. rewrite Matches_Seq. split.
  - intros (s1 & s2 & -> & H1 & H2). apply Matches_Class in H1 as (c & -> & Hc).
    apply Matches_Star_Class in H2. simpl. rewrite Hc, H2. split; [discriminate | reflexivity].
  - intros [Hne H]. destruct s as [|c s]; [congruence|]. simpl in H.
    apply andb_true_iff in H as [Hc Hs].
    exists (String c ""), s. repeat split.
    + now constructor.
    + now apply Matches_Star_Class.
Qed.

Lemma Matches_AtLeast_Class n p : forall s,
  Matches (AtLeast n (Class p)) s <-> n <= length s /\ forallChars p s = true.
Proof.
  induction n as [|n IH]; intros s; simpl.
  - rewrite Matches_Star_Class. split; [intros H; split; [lia | exact H] | tauto].
  - rewrite Matches_Seq. split.
    + intros (s1 & s2 & -> & H1 & H2). apply Matches_Class in H1 as (c & -> & Hc).
      apply IH in H2 as [Hn Hs]. simpl. rewrite Hc, Hs. split; [lia | reflexivity].
    + intros [Hn H]. destruct s as [|c s]; simpl in Hn; [lia|]. simpl in H.
      apply andb_true_iff in H as [Hc Hs].
      exists (String c ""), s. repeat split; [now constructor|].
      apply IH. split; [lia | exact Hs].
Qed.

(** The language of [EMAIL_REGEX]: a local part, [@], a domain, a dot and a
    top-level label of at least two letters. *)
Lemma EMAIL_REGEX_language s :
  Matches EMAIL_REGEX s <->
  exists l d t,
    s = l ++ "@" ++ d ++ "." ++ t
    /\ l <> "" /\ forallChars localChar l = true
    /\ d <> "" /\ forallChars domainChar d = true
    /\ 2 <= length t /\ forallChars isAlpha t = true.
Proof.
  unfold EMAIL_REGEX. split.
  - intros H.
    apply Matches_Seq in H as (l & s1 & -> & Hl & H).
    apply Matches_Seq in H as (a & s2 & -> & Ha & H).
    apply Matches_Seq in H as (d & s3 & -> & Hd & H).
    apply Matches_Seq in H as (o & t & -> & Ho & Ht).
    apply Matches_Plus_Class in Hl as [Hl1 Hl2].
    apply Matches_Plus_Class in Hd as [Hd1 Hd2].
    apply Matches_AtLeast_Class in Ht as [Ht1 Ht2].
    apply Matches_Class in Ha as (c & -> & Hc). apply Ascii.eqb_eq in Hc. subst c.
    apply Matches_Class in Ho as (c & -> & Hc). apply Ascii.eqb_eq in Hc. subst c.
    exists l, d, t. auto 10.
  - intros (l & d & t & -> & Hl1 & Hl2 & Hd1 & Hd2 & Ht1 & Ht2).
    constructor; [now apply Matches_Plus_Class|].
    change ("@" ++ d ++ "." ++ t) with (String "@" "" ++ (d ++ String "." "" ++ t)).
    constructor; [now constructor|].
    constructor; [now apply Matches_Plus_Class|].
    constructor; [now constructor|].
    now apply Matches_AtLeast_Class.
Qed.

End RegexFacts.

(** ** [trim] and [toLowerCase] *)

Section TrimFacts.

(** Case analysis on the 256 characters. *)
Ltac each_char c :=
  destruct c as [[] [] [] [] [] [] [] []]; vm_compute; reflexivity.

Lemma isWhiteSpace_toLowerCaseChar c :
  isWhiteSpace (toLowerCaseChar c) = isWhiteSpace c.
Proof. each_char c. Qed.

Lemma toLowerCaseChar_idempotent c :
  toLowerCaseChar (toLowerCaseChar c) = toLowerCaseChar c.
Proof. each_char c. Qed.

Lemma isUpperAscii_toLowerCaseChar c :
  isUpperAscii (toLowerCaseChar c) = false.
Proof. each_char c. Qed.

Lemma toLowerCase_idempotent s : toLowerCase (toLowerCase s) = toLowerCase s.
Proof.
  induction s as [|c s IH]; simpl; [reflexivity|].
  now rewrite toLowerCaseChar_idempotent, IH.
Qed.

Lemma toLowerCase_no_upper s :
  forallChars (fun c => negb (isUpperAscii c)) (toLowerCase s) = true.
Proof.
  induction s as [|c s IH]; simpl; [reflexivity|].
  now rewrite isUpperAscii_toLowerCaseChar, IH.
Qed.

Lemma trimStart_toLowerCase s :
  trimStart (toLowerCase s) = toLowerCase (trimStart s).
Proof.
  induction s as [|c s IH]; simpl; [reflexivity|].
  rewrite isWhiteSpace_toLowerCaseChar.
  destruct (isWhiteSpace c); [exact IH | reflexivity].
Qed.

Lemma trimEnd_toLowerCase s :
  trimEnd (toLowerCase s) = toLowerCase (trimEnd s).
Proof.
  induction s as [|c s IH]; simpl; [reflexivity|].
  rewrite IH, isWhiteSpace_toLowerCaseChar.
  destruct (trimEnd s); simpl; [destruct (isWhiteSpace c)|]; reflexivity.
Qed.

Lemma trim_toLowerCase s : trim (toLowerCase s) = toLowerCase (trim s).
Proof. unfold trim. now rewrite trimStart_toLowerCase, trimEnd_toLowerCase. Qed.

Lemma trimStart_no_leading s : startsWithWhiteSpace (trimStart s) = false.
Proof.
  induction s as [|c s IH]; simpl; [reflexivity|].
  destruct (isWhiteSpace c) eqn:E; [exact IH|].
  unfold startsWithWhiteSpace; simpl. exact E.
Qed.

Lemma trimStart_fixed s : startsWithWhiteSpace s = false -> trimStart s = s.
Proof.
  destruct s as [|c s]; [reflexivity|].
  unfold startsWithWhiteSpace; simpl. now intros ->.
Qed.

Lemma trimEnd_first s :
  startsWithWhiteSpace s = false -> startsWithWhiteSpace (trimEnd s) = false.
Proof.
  destruct s as [|c s]; [reflexivity|].
  unfold startsWithWhiteSpace; simpl. intros E.
  destruct (trimEnd s); [rewrite E|]; simpl; auto.
Qed.

Lemma trimEnd_no_trailing s : endsWithWhiteSpace (trimEnd s) = false.
Proof.
  unfold endsWithWhiteSpace.
  induction s as [|c s IH]; simpl; [reflexivity|].
  destruct (trimEnd s) as [|d t] eqn:E.
  - destruct (isWhiteSpace c) eqn:Ec; simpl; [reflexivity | exact Ec].
  - exact IH.
Qed.

Lemma trimEnd_fixed s : endsWithWhiteSpace s = false -> trimEnd s = s.
Proof.
  unfold endsWithWhiteSpace.
  induction s as [|c s IH]; [reflexivity|].
  destruct s as [|d t].
  - simpl. now intros ->.
  - intros H. change (last (String c (String d t))) with (last (String d t)) in H.
    specialize (IH H).
    change (trimEnd (String c (String d t))) with
      (match trimEnd (String d t) with
       | "" => if isWhiteSpace c then "" else String c ""
       | rest' => String c rest'
       end).
    now rewrite IH.
Qed.

Lemma trim_no_leading s : startsWithWhiteSpace (trim s) = false.
Proof. unfold trim. apply trimEnd_first, trimStart_no_leading. Qed.

Lemma trim_no_trailing s : endsWithWhiteSpace (trim s) = false.
Proof. unfold trim. apply trimEnd_no_trailing. Qed.

Lemma trim_fixed s :
  startsWithWhiteSpace s = false -> endsWithWhiteSpace s = false -> trim s = s.
Proof.
  intros H1 H2. unfold trim. rewrite (trimStart_fixed s H1). now apply trimEnd_fixed.
Qed.

Lemma trim_idempotent s : trim (trim s) = trim s.
Proof. apply trim_fixed; [apply trim_no_leading | apply trim_no_trailing]. Qed.

Lemma first_toLowerCase s :
  first (toLowerCase s) = option_map toLowerCaseChar (first s).
Proof. destruct s; reflexivity. Qed.

Lemma last_toLowerCase s :
  last (toLowerCase s) = option_map toLowerCaseChar (last s).
Proof.
  induction s as [|c s IH]; [reflexivity|].
  destruct s as [|d t]; [reflexivity|].
  change (last (String c (String d t))) with (last (String d t)).
  rewrite <- IH. reflexivity.
Qed.

Lemma startsWithWhiteSpace_toLowerCase s :
  startsWithWhiteSpace (toLowerCase s) = startsWithWhiteSpace s.
Proof.
  unfold startsWithWhiteSpace. rewrite first_toLowerCase.
  destruct (first s); simpl; [apply isWhiteSpace_toLowerCaseChar | reflexivity].
Qed.

Lemma endsWithWhiteSpace_toLowerCase s :
  endsWithWhiteSpace (toLowerCase s) = endsWithWhiteSpace s.
Proof.
  unfold endsWithWhiteSpace. rewrite last_toLowerCase.
  destruct (last s); simpl; [apply isWhiteSpace_toLowerCaseChar | reflexivity].
Qed.

Lemma sanitizeEmail_fixed s : sanitizeEmail (sanitizeEmail s) = sanitizeEmail s.
Proof.
  unfold sanitizeEmail.
  now rewrite trim_toLowerCase, trim_idempotent, toLowerCase_idempotent.
Qed.

End TrimFacts.

(** C8.  [sanitizeEmail] is a total function (it is a Rocq function), equal
    to trimming and then lowercasing; it is idempotent; its result neither
    begins nor ends with white space, so trimming it again changes nothing,
    and it has no character in [A]..[Z]. *)
Theorem sanitizeEmail_idempotent_trimmed_lowercased :
  forall s : string,
    sanitizeEmail s = toLowerCase (trim s)
    /\ sanitizeEmail (sanitizeEmail s) = sanitizeEmail s
    /\ startsWithWhiteSpace (sanitizeEmail s) = false
    /\ endsWithWhiteSpace (sanitizeEmail s) = false
    /\ trim (sanitizeEmail s) = sanitizeEmail s
    /\ forallChars (fun c => negb (isUpperAscii c)) (sanitizeEmail s) = true
    /\ sanitizeEmail "  User@Example.COM  " = "user@example.com".
Proof.
  intros s. split; [reflexivity|].
  split; [apply sanitizeEmail_fixed|].
  assert (H1 : startsWithWhiteSpace (sanitizeEmail s) = false).
  { unfold sanitizeEmail. rewrite startsWithWhiteSpace_toLowerCase. apply trim_no_leading. }
  assert (H2 : endsWithWhiteSpace (sanitizeEmail s) = false).
  { unfold sanitizeEmail. rewrite endsWithWhiteSpace_toLowerCase. apply trim_no_trailing. }
  repeat split; auto.
  - now apply trim_fixed.
  - apply toLowerCase_no_upper.
Qed.

(** ** Field and form validation *)

Section ValidationFacts.

(** The error built from a failing rule. *)
Lemma firstFailure_Some f v rules e :
  firstFailure f v rules = Some e <->
  exists pre rule post,
    rules = (pre ++ rule :: post)%list
    /\ forallb (fun r => test r v) pre = true
    /\ test rule v = false
    /\ e = mkFieldError f (rule_message rule) (rule_type rule).
Proof.
  induction rules as [|r rules IH]; simpl.
  - split; [discriminate|]. intros (pre & rule & post & E & _). now destruct pre.
  - destruct (test r v) eqn:Hr; simpl.
    + rewrite IH. split.
      * intros (pre & rule & post & -> & Hpre & Hrule & ->).
        exists (r :: pre), rule, post. simpl. rewrite Hr, Hpre. auto.
      * intros (pre & rule & post & E & Hpre & Hrule & ->).
        destruct pre as [|r' pre]; simpl in E; inversion E; subst.
        -- congruence.
        -- simpl in Hpre. apply andb_true_iff in Hpre as [_ Hpre].
           exists pre, rule, post. auto.
    + split.
      * intros H. inversion H; subst. exists [], r, rules. auto.
      * intros (pre & rule & post & E & Hpre & Hrule & ->).
        destruct pre as [|r' pre]; simpl in E; inversion E; subst.
        -- reflexivity.
        -- simpl in Hpre. rewrite Hr in Hpre. discriminate.
Qed.

Lemma firstFailure_None f v rules :
  firstFailure f v rules = None <-> forallb (fun r => test r v) rules = true.
Proof.
  induction rules as [|r rules IH]; simpl; [tauto|].
  destruct (test r v); simpl; [exact IH | split; discriminate].
Qed.

Lemma firstFailure_field f v rules e :
  firstFailure f v rules = Some e -> field e = f.
Proof.
  intros H. apply firstFailure_Some in H as (pre & rule & post & _ & _ & _ & ->).
  reflexivity.
Qed.

Lemma validateField_field f v e : validateField f v = Some e -> field e = f.
Proof. apply firstFailure_field. Qed.

Lemma Field_eqb_eq a b : Field_eqb a b = true <-> a = b.
Proof. destruct a, b; simpl; split; intros H; try reflexivity; discriminate. Qed.

Lemma pushError_length errs e :
  List.length (pushError errs e)
  = List.length errs + match e with Some _ => 1 | None => 0 end.
Proof.
  destruct e; simpl; [|lia]. rewrite length_app. reflexivity.
Qed.

End ValidationFacts.

(** C5.  [validateField] returns the error of the first rule of the field's
    list whose test fails, and [null] when every test passes.  For [email]
    the rules are, in order, required (trimmed value not empty), format
    (trimmed value in the language of [EMAIL_REGEX]: a local part, [@], a
    domain, a dot and at least two letters) and maxLength (trimmed length at
    most 254); for [password] required (length above 0), minLength (length
    at least 8) and maxLength (length at most 128); [rememberMe] has no
    rule.  The listed sample values give the listed error types. *)
Theorem validateField_first_failing_rule :
  (forall f v e,
      validateField f v = Some e <->
      exists pre rule post,
        rulesOf f = (pre ++ rule :: post)%list
        /\ forallb (fun r => test r v) pre = true
        /\ test rule v = false
        /\ e = mkFieldError f (rule_message rule) (rule_type rule))
  /\ (forall f v,
         validateField f v = None <-> forallb (fun r => test r v) (rulesOf f) = true)
  /\ (forall v,
         validateField Email v =
         if length (trim v) =? 0
         then Some (mkFieldError Email "Email is required" required)
         else if negb (Regex.test EMAIL_REGEX (trim v))
         then Some (mkFieldError Email "Please enter a valid email address" format)
         else if 254 <? length (trim v)
         then Some (mkFieldError Email "Email must not exceed 254 characters" maxLength)
         else None)
  /\ (forall s, Regex.test EMAIL_REGEX s = true <-> Matches EMAIL_REGEX s)
  /\ (forall s,
         Matches EMAIL_REGEX s <->
         exists l d t,
           s = l ++ "@" ++ d ++ "." ++ t
           /\ l <> "" /\ forallChars localChar l = true
           /\ d <> "" /\ forallChars domainChar d = true
           /\ 2 <= length t /\ forallChars isAlpha t = true)
  /\ (forall v,
         validateField Password v =
         if length v =? 0
         then Some (mkFieldError Password "Password is required" required)
         else if length v <? 8
         then Some (mkFieldError Password "Password must be at least 8 characters" minLength)
         else if 128 <? length v
         then Some (mkFieldError Password "Password must not exceed 128 characters" maxLength)
         else None)
  /\ (forall v, validateField RememberMe v = None)
  /\ option_map type (validateField Email "") = Some required
  /\ option_map type (validateField Email "not-an-email") = Some format
  /\ option_map type (validateField Email (JsString.repeat "a" 250 ++ "@b.com"))
     = Some maxLength
  /\ validateField Email "user@example.com" = None
  /\ option_map type (validateField Password "") = Some required
  /\ option_map type (validateField Password "short") = Some minLength
  /\ option_map type (validateField Password (JsString.repeat "a" 129)) = Some maxLength
  /\ validateField Password (JsString.repeat "a" 8) = None.
Proof.
  split; [intros f v e; apply firstFailure_Some|].
  split; [intros f v; apply firstFailure_None|].
  split.
  { intros v. unfold validateField, rulesOf, emailRules.
    cbn [firstFailure test rule_message rule_type].
    destruct (Nat.ltb_spec 0 (length (trim v)));
      destruct (Nat.eqb_spec (length (trim v)) 0); try lia; cbn [negb];
      [|reflexivity].
    destruct (Regex.test EMAIL_REGEX (trim v)); cbn [negb]; [|reflexivity].
    destruct (Nat.leb_spec (length (trim v)) 254);
      destruct (Nat.ltb_spec 254 (length (trim v))); try lia; reflexivity. }
  split; [intros s; apply test_Matches|].
  split; [intros s; apply EMAIL_REGEX_language|].
  split.
  { intros v. unfold validateField, rulesOf, passwordRules.
    cbn [firstFailure test rule_message rule_type].
    destruct (Nat.ltb_spec 0 (length v));
      destruct (Nat.eqb_spec (length v) 0); try lia; cbn [negb];
      [|reflexivity].
    destruct (Nat.leb_spec 8 (length v));
      destruct (Nat.ltb_spec (length v) 8); try lia; cbn [negb];
      [|reflexivity].
    destruct (Nat.leb_spec (length v) 128);
      destruct (Nat.ltb_spec 128 (length v)); try lia; reflexivity. }
  split; [reflexivity|].
  repeat split; vm_compute; reflexivity.
Qed.

(** C6.  [validateLoginForm] collects the result of [validateField] for
    [email] and then for [password], both always evaluated; [rememberMe]
    plays no part.  There is at most one error per field, none for
    [rememberMe], hence at most two; and [isValid] holds exactly when there
    is no error.  The empty form gives one error per field, the sample valid
    form none. *)
Theorem validateLoginForm_invariant :
  forall values : LoginFormValues,
    let result := validateLoginForm values in
    let errorsFor f := filter (fun e => Field_eqb (field e) f) (Types.errors result) in
    Types.errors result
    = (match validateField Email (email values) with Some e => [e] | None => [] end
       ++ match validateField Password (password values) with Some e => [e] | None => [] end)%list
    /\ (forall b,
           validateLoginForm (mkLoginFormValues (email values) (password values) b) = result)
    /\ (forall f, List.length (errorsFor f) <= 1)
    /\ errorsFor RememberMe = []
    /\ List.length (Types.errors result) <= 2
    /\ (isValid result = true <-> Types.errors result = [])
    /\ (let empty := validateLoginForm (mkLoginFormValues "" "" false) in
        map field (Types.errors empty) = [Email; Password] /\ isValid empty = false)
    /\ (let ok := validateLoginForm (mkLoginFormValues "user@example.com" "password123" false) in
        Types.errors ok = [] /\ isValid ok = true).
Proof.
  intros values result errorsFor.
  assert (E : Types.errors result
    = (match validateField Email (email values) with Some e => [e] | None => [] end
       ++ match validateField Password (password values) with Some e => [e] | None => [] end)%list).
  { subst result. unfold validateLoginForm. cbn [Types.errors pushError].
    destruct (validateField Email (email values));
      destruct (validateField Password (password values)); reflexivity. }
  split; [exact E|].
  split; [reflexivity|].
  assert (Hfield : forall f, List.length (errorsFor f) <= 1 /\ errorsFor RememberMe = []).
  { intros f. subst errorsFor. cbn beta. rewrite E.
    destruct (validateField Email (email values)) as [e1|] eqn:H1;
      destruct (validateField Password (password values)) as [e2|] eqn:H2;
      try apply validateField_field in H1; try apply validateField_field in H2;
      simpl; try rewrite H1; try rewrite H2; destruct f; simpl; auto. }
  split; [intros f; apply (Hfield f)|].
  split; [apply (Hfield Email)|].
  split.
  { rewrite E.
    destruct (validateField Email (email values));
      destruct (validateField Password (password values)); simpl; lia. }
  split.
  { subst result. unfold validateLoginForm. cbn [Types.errors isValid].
    rewrite Nat.eqb_eq. apply length_zero_iff_nil. }
  split; vm_compute; auto.
Qed.

(** C10.  [canSubmitForm values isSubmitting] holds exactly when no
    submission is in flight and the form validates; with a submission in
    flight it is false whatever the values.  The hook's [canSubmit] is
    [canSubmitForm] on its values, with [isSubmitting] the test that the
    submission state is [submitting]. *)
Theorem canSubmitForm_iff :
  forall (values : LoginFormValues) (isSubmitting : bool),
    (canSubmitForm values isSubmitting = true <->
     isSubmitting = false /\ isValid (validateLoginForm values) = true)
    /\ canSubmitForm values true = false
    /\ (forall st : HookState,
           canSubmit st = canSubmitForm (UseLogin.values st) (UseLogin.isSubmitting st)
           /\ (canSubmit st = true <->
               submissionState st <> submitting
               /\ isValid (validateLoginForm (UseLogin.values st)) = true)).
Proof.
  intros values isSubmitting.
  split.
  { unfold canSubmitForm. destruct isSubmitting.
    - split; [discriminate | intros [H _]; discriminate].
    - tauto. }
  split; [reflexivity|].
  intros st. split; [reflexivity|].
  unfold canSubmit, canSubmitForm.
  destruct (submissionState st); simpl;
    split; try discriminate; try (intros [H _]; congruence);
    try (intros H; split; [discriminate | exact H]); try (intros [_ H]; exact H).
Qed.

(** ** The redirect guard *)

Section RedirectFacts.

Lemma isValidRedirectUrl_empty : isValidRedirectUrl "" = false.
Proof. reflexivity. Qed.

End RedirectFacts.

(** C1.  [isValidRedirectUrl url] holds exactly when [url] is neither empty
    nor white space only, begins with none of [http://], [https://], [//],
    [javascript:], [data:], begins with [/], and equals one of the roots
    [/dashboard], [/profile], [/settings], [/] or begins with one of them
    followed by [/].  The listed sample URLs are accepted and rejected as
    listed. *)
Theorem isValidRedirectUrl_iff :
  forall url : string,
    (isValidRedirectUrl url = true <->
     (url <> "" /\ trim url <> "")
     /\ startsWith url "http://" = false
     /\ startsWith url "https://" = false
     /\ startsWith url "//" = false
     /\ startsWith url "javascript:" = false
     /\ startsWith url "data:" = false
     /\ startsWith url "/" = true
     /\ exists root,
          In root ["/dashboard"; "/profile"; "/settings"; "/"]
          /\ (url = root \/ startsWith url (root ++ "/") = true))
    /\ isValidRedirectUrl "/dashboard" = true
    /\ isValidRedirectUrl "/dashboard/overview" = true
    /\ isValidRedirectUrl "http://evil.com" = false
    /\ isValidRedirectUrl "//evil.com" = false
    /\ isValidRedirectUrl "javascript:alert(1)" = false
    /\ isValidRedirectUrl "/admin" = false
    /\ isValidRedirectUrl "" = false.
Proof.
  intros url. split; [|repeat split; reflexivity].
  unfold isValidRedirectUrl.
  destruct (String.eqb_spec url "") as [->|Hne]; cbn [orb].
  { split; [discriminate | intros [[H _] _]; congruence]. }
  destruct (Nat.eqb_spec (length (trim url)) 0) as [El|El].
  { apply length_zero_empty in El. split; [discriminate | intros [[_ H] _]; congruence]. }
  assert (Ht : trim url <> "") by (intros E; apply El; now rewrite E).
  destruct (startsWith url "http://") eqn:E1; cbn [orb];
    [split; [discriminate | intros (_ & H & _); discriminate]|].
  destruct (startsWith url "https://") eqn:E2; cbn [orb];
    [split; [discriminate | intros (_ & _ & H & _); discriminate]|].
  destruct (startsWith url "//") eqn:E3; cbn [orb];
    [split; [discriminate | intros (_ & _ & _ & H & _); discriminate]|].
  destruct (startsWith url "javascript:") eqn:E4; cbn [orb];
    [split; [discriminate | intros (_ & _ & _ & _ & H & _); discriminate]|].
  destruct (startsWith url "data:") eqn:E5; cbn [orb];
    [split; [discriminate | intros (_ & _ & _ & _ & _ & H & _); discriminate]|].
  destruct (startsWith url "/") eqn:E6; cbn [negb];
    [|split; [discriminate | intros (_ & _ & _ & _ & _ & _ & H & _); discriminate]].
  rewrite existsb_exists. split.
  - intros (root & Hin & H). repeat split; auto.
    exists root. split; [exact Hin|].
    apply orb_true_iff in H as [H | H]; [left; now apply String.eqb_eq | right; exact H].
  - intros (_ & _ & _ & _ & _ & _ & _ & root & Hin & H).
    exists root. split; [exact Hin|].
    apply orb_true_iff. destruct H as [H | H]; [left; now apply String.eqb_eq | right; exact H].
Qed.

(** C9.  [getSafeRedirectUrl candidate default] is the candidate when the
    candidate is defined and passes [isValidRedirectUrl], and the supplied
    default, as it is, in every other case: an undefined candidate or one
    that fails the guard.  The default is returned even when it would fail
    the guard itself.  The three sample calls give the listed results. *)
Theorem getSafeRedirectUrl_candidate_or_default :
  forall (candidate : option string) (default : string),
    getSafeRedirectUrl candidate (Some default)
    = match candidate with
      | Some url => if isValidRedirectUrl url then url else default
      | None => default
      end
    /\ getSafeRedirectUrl (Some "http://evil.com") (Some "/dashboard") = "/dashboard"
    /\ getSafeRedirectUrl (Some "/profile") (Some "/dashboard") = "/profile"
    /\ getSafeRedirectUrl None (Some "/home") = "/home"
    /\ getSafeRedirectUrl (Some "/admin") (Some "http://evil.com") = "http://evil.com".
Proof.
  intros candidate default. split; [|repeat split; reflexivity].
  unfold getSafeRedirectUrl. destruct candidate as [url|]; [|reflexivity].
  unfold truthy. destruct (String.eqb_spec url "") as [->|Hne]; cbn [negb andb].
  - rewrite isValidRedirectUrl_empty. reflexivity.
  - reflexivity.
Qed.

(** ** The submission state machine *)

Section MachineFacts.

Variable opts : UseLoginOptions.

(** A run from the fresh hook ends in a reachable state. *)
Lemma run_reachableBy allowed evs : forall st st',
  (forall s e, allowed s e) ->
  reachableBy allowed opts st ->
  run opts evs st = Some st' ->
  reachableBy allowed opts st'.
Proof.
  induction evs as [|ev evs IH]; simpl; intros st st' Hall Hst Hrun.
  - now inversion Hrun; subst.
  - destruct (step opts ev st) as [st1|] eqn:E; [|discriminate].
    apply (IH st1 st' Hall); [|exact Hrun].
    eapply reach_step; eauto.
Qed.

Lemma run_reachable evs st' :
  run opts evs initialState = Some st' -> reachable opts st'.
Proof.
  apply run_reachableBy; [intros s e; exact I | apply reach_initial].
Qed.

(** What each handler leaves unchanged. *)
Lemma handleChange_frame f value st st' :
  handleChange opts f value st = Some st' ->
  isSubmittingRef st' = isSubmittingRef st
  /\ pending st' = pending st
  /\ trace st' = trace st
  /\ submissionState st' = submissionState st.
Proof.
  unfold handleChange. destruct (setField _ _ _); [|discriminate].
  intros H; inversion H; subst; clear H.
  destruct (authError st), (validateOnChange opts), value; auto.
Qed.

Lemma handleChange_values f value st st' :
  handleChange opts f value st = Some st' ->
  setField f
    match f, value with
    | Email, StringValue s => StringValue (sanitizeEmail s)
    | _, _ => value
    end (values st) = Some (values st').
Proof.
  unfold handleChange. destruct (setField _ _ _); [|discriminate].
  intros H; inversion H; subst; clear H.
  destruct (authError st), (validateOnChange opts), value; auto.
Qed.

Lemma handleBlur_frame f st :
  isSubmittingRef (handleBlur opts f st) = isSubmittingRef st
  /\ pending (handleBlur opts f st) = pending st
  /\ trace (handleBlur opts f st) = trace st
  /\ values (handleBlur opts f st) = values st.
Proof.
  unfold handleBlur.
  destruct (validateOnBlur opts); [destruct (getField f (values st))|]; auto.
Qed.

Lemma handleSubmit_values st : values (handleSubmit st) = values st.
Proof.
  unfold handleSubmit. destruct (isSubmittingRef st); [reflexivity|].
  destruct (isValid (validateLoginForm (values st))); reflexivity.
Qed.

(** The re-entrancy guard. *)
Lemma handleSubmit_guard st : isSubmittingRef st = true -> handleSubmit st = st.
Proof. unfold handleSubmit. now intros ->. Qed.

Lemma loginCalls_app t1 t2 :
  loginCalls (t1 ++ t2) = (loginCalls t1 ++ loginCalls t2)%list.
Proof.
  induction t1 as [|[] t1 IH]; simpl; auto. now rewrite IH.
Qed.

(** The stored email address is always a fixed point of [sanitizeEmail]. *)
Lemma stored_email_sanitized allowed st :
  reachableBy allowed opts st ->
  sanitizeEmail (email (values st)) = email (values st).
Proof.
  induction 1 as [|st ev st' Hreach IH _ Hstep]; [reflexivity|].
  destruct ev as [f value| f | | |call response|call err|call response thrown];
    simpl in Hstep.
  - apply handleChange_values in Hstep.
    destruct f, value; simpl in Hstep; inversion Hstep as [E]; simpl;
      auto using sanitizeEmail_fixed.
  - inversion Hstep; subst. now rewrite (proj2 (proj2 (proj2 (handleBlur_frame f st)))).
  - inversion Hstep; subst. now rewrite handleSubmit_values.
  - inversion Hstep; subst. reflexivity.
  - destruct (isPending call st); inversion Hstep; subst.
    unfold loginResolved. destruct (onSuccess opts); exact IH.
  - destruct (isPending call st); inversion Hstep; subst.
    unfold loginRejected. destruct (onError opts); exact IH.
  - destruct (isPending call st && onSuccess opts); inversion Hstep; subst.
    unfold successCallbackThrew, loginRejected. destruct (onError opts); exact IH.
Qed.

(** Without a reset in flight, the flag is set exactly while one call is
    outstanding. *)
Lemma flag_tracks_pending st :
  reachableBy noResetInFlight opts st ->
  (isSubmittingRef st = true /\ exists call, pending st = [call])
  \/ (isSubmittingRef st = false /\ pending st = []).
Proof.
  induction 1 as [|st ev st' Hreach IH Hallowed Hstep]; [right; auto|].
  destruct ev as [f value| f | | |call response|call err|call response thrown];
    simpl in Hstep.
  - apply handleChange_frame in Hstep as (-> & -> & _). exact IH.
  - inversion Hstep; subst.
    destruct (handleBlur_frame f st) as (-> & -> & _). exact IH.
  - inversion Hstep; subst. unfold handleSubmit.
    destruct IH as [[Hf Hp] | [Hf Hp]]; rewrite Hf; [left; auto|].
    destruct (isValid (validateLoginForm (values st))); cbn [negb].
    + left. split; [reflexivity|]. simpl. rewrite Hp. simpl. eauto.
    + right. auto.
  - inversion Hstep; subst. right. split; [reflexivity|].
    simpl. now apply Hallowed.
  - destruct (isPending call st) eqn:Hpend; inversion Hstep; subst. right.
    destruct IH as [[_ [c Hp]] | [_ Hp]];
      unfold isPending in Hpend; rewrite Hp in Hpend; simpl in Hpend; [|discriminate].
    rewrite orb_false_r in Hpend. apply Nat.eqb_eq in Hpend. subst c.
    unfold loginResolved. destruct (onSuccess opts); simpl; rewrite Hp; simpl;
      rewrite Nat.eqb_refl; auto.
  - destruct (isPending call st) eqn:Hpend; inversion Hstep; subst. right.
    destruct IH as [[_ [c Hp]] | [_ Hp]];
      unfold isPending in Hpend; rewrite Hp in Hpend; simpl in Hpend; [|discriminate].
    rewrite orb_false_r in Hpend. apply Nat.eqb_eq in Hpend. subst c.
    unfold loginRejected. destruct (onError opts); simpl; rewrite Hp; simpl;
      rewrite Nat.eqb_refl; auto.
  - destruct (isPending call st && onSuccess opts) eqn:Hboth; inversion Hstep; subst.
    apply andb_true_iff in Hboth as [Hpend _]. right.
    destruct IH as [[_ [c Hp]] | [_ Hp]];
      unfold isPending in Hpend; rewrite Hp in Hpend; simpl in Hpend; [|discriminate].
    rewrite orb_false_r in Hpend. apply Nat.eqb_eq in Hpend. subst c.
    unfold successCallbackThrew, loginRejected. destruct (onError opts); simpl;
      rewrite Hp; simpl; rewrite Nat.eqb_refl; auto.
Qed.

End MachineFacts.

Section SubmitFacts.

Lemma sanitizeEmail_fixed_parts e :
  sanitizeEmail e = e -> trim e = e /\ toLowerCase e = e.
Proof.
  intros H. split; rewrite <- H; unfold sanitizeEmail.
  - now rewrite trim_toLowerCase, trim_idempotent.
  - apply toLowerCase_idempotent.
Qed.

(** A submit that passes the guard with a valid form. *)
Lemma handleSubmit_valid st :
  isSubmittingRef st = false ->
  isValid (validateLoginForm (values st)) = true ->
  handleSubmit st
  = callLogin {| cred_email := email (values st);
                 cred_password := password (values st);
                 cred_rememberMe := rememberMe (values st) |}
      (setAuthError None
         (setSubmissionState submitting
            (setIsSubmittingRef true
               (setTouched allTouched
                  (setErrors (Types.errors (validateLoginForm (values st))) st))))).
Proof. unfold handleSubmit. now intros -> ->. Qed.

(** A submit that passes the guard with an invalid form. *)
Lemma handleSubmit_invalid st :
  isSubmittingRef st = false ->
  isValid (validateLoginForm (values st)) = false ->
  handleSubmit st
  = setSubmissionState error
      (setTouched allTouched
         (setErrors (Types.errors (validateLoginForm (values st))) st)).
Proof. unfold handleSubmit. now intros -> ->. Qed.

End SubmitFacts.

(** C2, as the code has it.  In every state reached without calling
    [resetForm] while a call of [login] is outstanding, at most one call is
    outstanding, and the re-entrancy flag is set exactly when there is one.
    In any state, a submit taken while the flag is set changes nothing: the
    client is not invoked, the submission state stays, nothing is queued.
    Hence two submits in a row on a valid form with the flag clear invoke the
    client exactly once. *)
Theorem submit_guard_single_call :
  forall opts : UseLoginOptions,
    (forall st,
        reachableBy noResetInFlight opts st ->
        List.length (pending st) <= 1
        /\ (isSubmittingRef st = true <-> List.length (pending st) = 1))
    /\ (forall st, isSubmittingRef st = true -> step opts Submit st = Some st)
    /\ (forall st,
           isSubmittingRef st = false ->
           isValid (validateLoginForm (values st)) = true ->
           exists st1,
             step opts Submit st = Some st1
             /\ run opts [Submit; Submit] st = Some st1
             /\ loginCalls (trace st1)
                = (loginCalls (trace st)
                   ++ [ {| cred_email := email (values st);
                           cred_password := password (values st);
                           cred_rememberMe := rememberMe (values st) |} ])%list
             /\ pending st1
                = (pending st ++ [List.length (loginCalls (trace st))])%list).
Proof.
  intros opts. split; [|split].
  - intros st Hreach.
    destruct (flag_tracks_pending opts st Hreach) as [[Hf [c Hp]] | [Hf Hp]];
      rewrite Hf, Hp; simpl; split; try lia; split; auto; discriminate.
  - intros st Hf. simpl. now rewrite handleSubmit_guard.
  - intros st Hf Hv. exists (handleSubmit st).
    split; [reflexivity|].
    assert (Hflag : isSubmittingRef (handleSubmit st) = true)
      by (rewrite handleSubmit_valid; auto).
    split.
    + simpl. now rewrite (handleSubmit_guard (handleSubmit st) Hflag).
    + rewrite handleSubmit_valid by auto. simpl.
      rewrite loginCalls_app. auto.
Qed.

(** On a fresh form filled with valid credentials, two submits in a row
    call [login] once and leave one call outstanding. *)
Lemma submit_guard_single_call_witness :
  reachableBy noResetInFlight defaultOptions submittedState
  /\ List.length (pending submittedState) <= 1
  /\ isSubmittingRef filledState = false
  /\ isValid (validateLoginForm (values filledState)) = true
  /\ run defaultOptions [Submit; Submit] filledState = Some submittedState
  /\ List.length (loginCalls (trace submittedState)) = 1
  /\ step defaultOptions Submit submittedState = Some submittedState.
Proof.
  destruct (submit_guard_single_call defaultOptions) as (Hinv & Hnoop & Htwice).
  assert (R : reachableBy noResetInFlight defaultOptions submittedState).
  { apply reach_step with (st := filledState) (ev := Submit);
      [| intros H; discriminate H | reflexivity].
    apply reach_step
      with (st := setValues (mkLoginFormValues "user@example.com" "" false) initialState)
           (ev := Change Password (StringValue "password123"));
      [| intros H; discriminate H | reflexivity].
    apply reach_step
      with (st := initialState) (ev := Change Email (StringValue "user@example.com"));
      [apply reach_initial | intros H; discriminate H | reflexivity]. }
  split; [exact R|].
  split; [apply (Hinv submittedState R)|].
  split; [reflexivity|]. split; [reflexivity|].
  destruct (Htwice filledState eq_refl eq_refl) as (st1 & Hstep & Hrun & Hcalls & _).
  assert (E : st1 = submittedState) by (inversion Hstep; reflexivity).
  subst st1. split; [exact Hrun|]. split.
  - rewrite Hcalls. reflexivity.
  - apply Hnoop. reflexivity.
Defined.

(** C2, as stated, fails: after a reset while a call is outstanding the
    flag is clear again, and the next submit of a valid form starts a second
    call beside the first. *)
Lemma reset_in_flight_two_calls :
  ~ (forall st, reachable defaultOptions st -> List.length (pending st) <= 1).
Proof.
  intros H.
  destruct (run defaultOptions resubmitAfterReset initialState) as [st|] eqn:E;
    [|discriminate].
  specialize (H st (run_reachable defaultOptions _ _ E)).
  vm_compute in E. inversion E; subst. simpl in H. lia.
Qed.

(** C3.  A submit on an invalid form, taken with the re-entrancy flag
    clear as the transition requires, never invokes the client's [login] and
    never enters [submitting]: in that one step it sets the submission state
    to [error], stores the validation errors, marks all fields touched and
    returns.  The flag stays clear and the values are untouched. *)
Theorem submit_invalid_form :
  forall (opts : UseLoginOptions) (st : HookState),
    isSubmittingRef st = false ->
    isValid (validateLoginForm (values st)) = false ->
    exists st',
      step opts Submit st = Some st'
      /\ submissionState st' = error
      /\ errors st' = Types.errors (validateLoginForm (values st))
      /\ errors st' <> []
      /\ touched st' = allTouched
      /\ trace st' = trace st
      /\ loginCalls (trace st') = loginCalls (trace st)
      /\ pending st' = pending st
      /\ isSubmittingRef st' = false
      /\ values st' = values st.
Proof.
  intros opts st Hf Hv. exists (handleSubmit st). split; [reflexivity|].
  rewrite (handleSubmit_invalid st Hf Hv). simpl. repeat split; auto.
  intros E. unfold validateLoginForm in Hv. cbn [isValid] in Hv.
  unfold validateLoginForm in E. cbn [Types.errors] in E.
  rewrite E in Hv. discriminate Hv.
Qed.

(** Submitting the empty form of a fresh hook. *)
Lemma submit_invalid_form_witness :
  isSubmittingRef initialState = false
  /\ isValid (validateLoginForm (values initialState)) = false
  /\ exists st',
       step defaultOptions Submit initialState = Some st'
       /\ submissionState st' = error
       /\ trace st' = []
       /\ map field (errors st') = [Email; Password]
       /\ touched st' = allTouched.
Proof.
  split; [reflexivity|]. split; [reflexivity|].
  destruct (submit_invalid_form defaultOptions initialState eq_refl eq_refl)
    as (st' & Hstep & Hstate & Herrors & _ & Htouched & Htrace & _).
  exists st'. repeat split; auto. rewrite Herrors. reflexivity.
Defined.

(** C4.  In a reachable state, a submit that passes the guard with a valid
    form clears the stored authentication error, sets the re-entrancy flag,
    moves to [submitting] and calls [login] once, with the stored email,
    password and rememberMe.  The stored email is a fixed point of
    [sanitizeEmail], hence trimmed and lowercase, whatever events led to the
    state. *)
Theorem submit_valid_form :
  forall (opts : UseLoginOptions) (st : HookState),
    reachable opts st ->
    isSubmittingRef st = false ->
    isValid (validateLoginForm (values st)) = true ->
    exists st' credentials,
      step opts Submit st = Some st'
      /\ authError st' = None
      /\ isSubmittingRef st' = true
      /\ submissionState st' = submitting
      /\ trace st' = (trace st ++ [LoginCall (List.length (loginCalls (trace st))) credentials])%list
      /\ pending st' = (pending st ++ [List.length (loginCalls (trace st))])%list
      /\ values st' = values st
      /\ cred_email credentials = email (values st)
      /\ cred_password credentials = password (values st)
      /\ cred_rememberMe credentials = rememberMe (values st)
      /\ sanitizeEmail (cred_email credentials) = cred_email credentials
      /\ trim (cred_email credentials) = cred_email credentials
      /\ toLowerCase (cred_email credentials) = cred_email credentials.
Proof.
  intros opts st Hreach Hf Hv.
  exists (handleSubmit st),
    {| cred_email := email (values st);
       cred_password := password (values st);
       cred_rememberMe := rememberMe (values st) |}.
  pose proof (stored_email_sanitized opts _ st Hreach) as Hfix.
  destruct (sanitizeEmail_fixed_parts _ Hfix) as [Htrim Hlower].
  split; [reflexivity|].
  rewrite (handleSubmit_valid st Hf Hv).
  repeat split; try reflexivity; assumption.
Qed.

(** An email typed with spaces and capitals reaches [login] sanitized. *)
Lemma submit_valid_form_witness :
  run defaultOptions (fillForm "  User@Example.COM " "password123") initialState
  = Some filledState
  /\ isSubmittingRef filledState = false
  /\ isValid (validateLoginForm (values filledState)) = true
  /\ exists st',
       step defaultOptions Submit filledState = Some st'
       /\ submissionState st' = submitting
       /\ loginCalls (trace st')
          = [ {| cred_email := "user@example.com";
                 cred_password := "password123";
                 cred_rememberMe := false |} ].
Proof.
  assert (E : run defaultOptions (fillForm "  User@Example.COM " "password123") initialState
              = Some filledState) by reflexivity.
  split; [exact E|]. split; [reflexivity|]. split; [reflexivity|].
  destruct (submit_valid_form defaultOptions filledState
              (run_reachable defaultOptions _ _ E) eq_refl eq_refl)
    as (st' & c & Hstep & _ & _ & Hstate & Htrace & _ & _ & He & Hp & Hr & _).
  exists st'. split; [exact Hstep|]. split; [exact Hstate|].
  rewrite Htrace. destruct c as [ce cp cr]. simpl in He, Hp, Hr. subst. reflexivity.
Defined.

(** C7.  When an outstanding call of [login] rejects with [err], in
    [submitting] or any other submission state, the machine clears the
    re-entrancy flag, stores [err] itself as the authentication error, moves
    to [error] and hands [err] itself to the error callback when one was
    supplied.  Nothing else of the form changes. *)
Theorem login_rejected_stores_error :
  forall (opts : UseLoginOptions) (st : HookState) (call : nat) (err : AuthError),
    isPending call st = true ->
    exists st',
      step opts (Reject call err) st = Some st'
      /\ isSubmittingRef st' = false
      /\ authError st' = Some err
      /\ submissionState st' = error
      /\ trace st' = (trace st ++ if onError opts then [OnError err] else [])%list
      /\ isPending call st' = false
      /\ values st' = values st
      /\ errors st' = errors st
      /\ touched st' = touched st.
Proof.
  intros opts st call err Hp. simpl. rewrite Hp.
  eexists. split; [reflexivity|].
  unfold loginRejected. destruct (onError opts); simpl;
    repeat split; auto using app_nil_r;
    unfold isPending; simpl;
    induction (pending st) as [|c l IH]; simpl; auto;
    destruct (Nat.eqb_spec c call); simpl; auto;
    destruct (Nat.eqb_spec call c); simpl; auto; congruence.
Qed.

(** Valid credentials, then a rejection with the service's error for wrong
    credentials: the machine goes from [idle] through [submitting] to
    [error], and the message stored and handed to the callback is that of
    the service. *)
Lemma login_rejected_stores_error_witness :
  submissionState initialState = idle
  /\ run defaultOptions (fillForm "user@example.com" "password123" ++ [Submit])%list
       initialState = Some submittedState
  /\ submissionState submittedState = submitting
  /\ isPending 0 submittedState = true
  /\ exists st2,
       step (mkUseLoginOptions false true false true) (Reject 0 invalidCredentials)
         submittedState = Some st2
       /\ submissionState st2 = error
       /\ option_map auth_message (authError st2) = Some "Invalid email or password"
       /\ option_map code (authError st2) = Some INVALID_CREDENTIALS
       /\ trace st2 = (trace submittedState ++ [OnError invalidCredentials])%list
       /\ isSubmittingRef st2 = false.
Proof.
  repeat (split; [reflexivity|]).
  destruct (login_rejected_stores_error (mkUseLoginOptions false true false true)
              submittedState 0 invalidCredentials eq_refl)
    as (st2 & Hstep & Hflag & Herr & Hstate & Htrace & _).
  exists st2. repeat split; auto; now rewrite Herr.
Defined.

(* ================================================================== *)
(** * Further properties of the validation module *)

Section SanitizedValidation.

Import RegexClasses.

Ltac by_char c :=
  destruct c as [[] [] [] [] [] [] [] []]; vm_compute; reflexivity.

Lemma localChar_toLowerCaseChar c : localChar (toLowerCaseChar c) = localChar c.
Proof. by_char c. Qed.

Lemma domainChar_toLowerCaseChar c : domainChar (toLowerCaseChar c) = domainChar c.
Proof. by_char c. Qed.

Lemma isAlpha_toLowerCaseChar c : isAlpha (toLowerCaseChar c) = isAlpha c.
Proof. by_char c. Qed.

Lemma atChar_toLowerCaseChar c : atChar (toLowerCaseChar c) = atChar c.
Proof. by_char c. Qed.

Lemma dotChar_toLowerCaseChar c : dotChar (toLowerCaseChar c) = dotChar c.
Proof. by_char c. Qed.

Lemma respects_seq f r1 r2 :
  respects f r1 -> respects f r2 -> respects f (seq r1 r2).
Proof. destruct r1, r2; simpl; tauto. Qed.

Lemma respects_alt f r1 r2 :
  respects f r1 -> respects f r2 -> respects f (alt r1 r2).
Proof. destruct r1, r2; simpl; tauto. Qed.

Lemma respects_deriv f c r : respects f r -> respects f (deriv c r).
Proof.
  induction r as [| |p|r1 IH1 r2 IH2|r1 IH1 r2 IH2|r IH]; simpl; intros H; auto.
  - destruct (p c); exact I.
  - destruct H as [H1 H2].
    destruct (nullable r1); [apply respects_alt|]; auto using respects_seq.
  - destruct H as [H1 H2]. auto using respects_alt.
  - apply respects_seq; simpl; auto.
Qed.

Lemma deriv_respects f c r : respects f r -> deriv (f c) r = deriv c r.
Proof.
  induction r as [| |p|r1 IH1 r2 IH2|r1 IH1 r2 IH2|r IH]; simpl; intros H; auto.
  - now rewrite H.
  - destruct H as [H1 H2]. now rewrite IH1, IH2.
  - destruct H as [H1 H2]. now rewrite IH1, IH2.
  - now rewrite IH.
Qed.

(** A regular expression whose classes do not separate a letter from its
    lowercase form accepts a string exactly when it accepts its lowercase
    form. *)
Lemma test_toLowerCase s : forall r,
  respects toLowerCaseChar r -> Regex.test r (toLowerCase s) = Regex.test r s.
Proof.
  induction s as [|c s IH]; intros r H; simpl; [reflexivity|].
  rewrite (deriv_respects _ c r H). apply IH. now apply respects_deriv.
Qed.

Lemma EMAIL_REGEX_respects_toLowerCase : respects toLowerCaseChar EMAIL_REGEX.
Proof.
  unfold EMAIL_REGEX; simpl.
  repeat split; auto using localChar_toLowerCaseChar, domainChar_toLowerCaseChar,
    isAlpha_toLowerCaseChar, atChar_toLowerCaseChar, dotChar_toLowerCaseChar.
Qed.

Lemma length_toLowerCase s : length (toLowerCase s) = length s.
Proof. induction s as [|c s IH]; simpl; auto. Qed.

Lemma trim_sanitizeEmail v : trim (sanitizeEmail v) = toLowerCase (trim v).
Proof. unfold sanitizeEmail. now rewrite trim_toLowerCase, trim_idempotent. Qed.

Lemma validateField_sanitizeEmail v :
  validateField Email (sanitizeEmail v) = validateField Email v.
Proof.
  unfold validateField, rulesOf, emailRules.
  cbn [firstFailure test rule_message rule_type].
  rewrite trim_sanitizeEmail, length_toLowerCase.
  rewrite (test_toLowerCase _ _ EMAIL_REGEX_respects_toLowerCase).
  reflexivity.
Qed.

End SanitizedValidation.

(** X1.  For every string of code units up to U+00FF, which are the strings
    of this development, validating the sanitized email gives the result of
    validating the raw input: the same rule fails, or none; and so for the
    whole form.  On such input the check [handleChange] runs on what was
    typed agrees with the checks run later on what was stored.  The equality
    does not extend to all strings: [toLowerCase] maps the Kelvin sign U+212A
    to [k], which the regular expression accepts while it rejects the
    sign. *)
Theorem validateField_email_sanitized :
  forall v : string,
    validateField Email (sanitizeEmail v) = validateField Email v
    /\ forall p r,
         validateLoginForm (mkLoginFormValues (sanitizeEmail v) p r)
         = validateLoginForm (mkLoginFormValues v p r).
Proof.
  intros v. split; [apply validateField_sanitizeEmail|].
  intros p r. unfold validateLoginForm. cbn [email password].
  now rewrite validateField_sanitizeEmail.
Qed.

Section AcceptedEmail.

Ltac by_char' c :=
  destruct c as [[] [] [] [] [] [] [] []]; vm_compute; intros; congruence.

Lemma localChar_not_space c : localChar c = true -> isWhiteSpace c = false.
Proof. by_char' c. Qed.

Lemma domainChar_not_space c : domainChar c = true -> isWhiteSpace c = false.
Proof. by_char' c. Qed.

Lemma isAlpha_not_space c : isAlpha c = true -> isWhiteSpace c = false.
Proof. by_char' c. Qed.

Lemma forallChars_append p s1 s2 :
  forallChars p (s1 ++ s2) = forallChars p s1 && forallChars p s2.
Proof.
  induction s1 as [|c s1 IH]; simpl; [reflexivity|].
  now rewrite IH, andb_assoc.
Qed.

Lemma forallChars_impl (p q : ascii -> bool) s :
  (forall c, p c = true -> q c = true) ->
  forallChars p s = true -> forallChars q s = true.
Proof.
  intros Hpq. induction s as [|c s IH]; simpl; [reflexivity|].
  rewrite !andb_true_iff. intros [Hc Hs]. auto.
Qed.

Lemma length_append s1 s2 : length (s1 ++ s2) = length s1 + length s2.
Proof. induction s1 as [|c s1 IH]; simpl; auto. Qed.

Lemma length_positive s : s <> "" -> 1 <= length s.
Proof. destruct s; simpl; [congruence | lia]. Qed.

(** The rules of a field all pass exactly when [validateField] is [null]. *)
Lemma validateField_email_None v :
  validateField Email v = None <->
  Matches EMAIL_REGEX (trim v) /\ length (trim v) <= 254.
Proof.
  unfold validateField. rewrite firstFailure_None.
  cbn [forallb rulesOf emailRules test].
  rewrite !andb_true_iff, test_Matches, Nat.leb_le, Nat.ltb_lt. split.
  - tauto.
  - intros [Hm Hl]. repeat split; auto.
    apply EMAIL_REGEX_language in Hm as (l & d & t & E & Hl1 & _).
    rewrite E, length_append. apply length_positive in Hl1. lia.
Qed.

Lemma validateField_password_None v :
  validateField Password v = None <-> 8 <= length v <= 128.
Proof.
  unfold validateField. rewrite firstFailure_None.
  cbn [forallb rulesOf passwordRules test].
  rewrite !andb_true_iff, !Nat.leb_le, Nat.ltb_lt. intuition lia.
Qed.

Lemma validateLoginForm_errors values :
  Types.errors (validateLoginForm values)
  = (match validateField Email (email values) with Some e => [e] | None => [] end
     ++ match validateField Password (password values) with Some e => [e] | None => [] end)%list.
Proof.
  unfold validateLoginForm. cbn [Types.errors pushError].
  destruct (validateField Email (email values));
    destruct (validateField Password (password values)); reflexivity.
Qed.

End AcceptedEmail.

(** X2.  An email that passes [validateField] has, once trimmed, between 6
    and 254 characters and no white space inside. *)
Theorem accepted_email_bounds :
  forall v : string,
    validateField Email v = None ->
    6 <= length (trim v) <= 254
    /\ forallChars (fun c => negb (isWhiteSpace c)) (trim v) = true.
Proof.
  intros v H. apply validateField_email_None in H as [Hm Hlen].
  apply EMAIL_REGEX_language in Hm as (l & d & t & E & Hl1 & Hl2 & Hd1 & Hd2 & Ht1 & Ht2).
  split.
  - split; [|exact Hlen].
    rewrite E, !length_append. simpl.
    apply length_positive in Hl1. apply length_positive in Hd1. lia.
  - rewrite E, !forallChars_append. simpl.
    rewrite (forallChars_impl localChar _ l), (forallChars_impl domainChar _ d),
      (forallChars_impl isAlpha _ t); auto;
      intros c Hc; apply negb_true_iff;
      auto using localChar_not_space, domainChar_not_space, isAlpha_not_space.
Qed.

(** The shortest accepted email. *)
Lemma accepted_email_bounds_witness :
  validateField Email " a@b.cd " = None
  /\ 6 <= length (trim " a@b.cd ") <= 254
  /\ forallChars (fun c => negb (isWhiteSpace c)) (trim " a@b.cd ") = true.
Proof.
  split; [reflexivity|]. apply (accepted_email_bounds " a@b.cd "). reflexivity.
Defined.

(** X3.  The form validates exactly when the trimmed email is in the language
    of [EMAIL_REGEX] and has at most 254 characters and the password, as it
    is, has between 8 and 128 characters; [rememberMe] plays no part. *)
Theorem validateLoginForm_isValid_iff :
  forall values : LoginFormValues,
    isValid (validateLoginForm values) = true <->
    Matches EMAIL_REGEX (trim (email values))
    /\ length (trim (email values)) <= 254
    /\ 8 <= length (password values) <= 128.
Proof.
  intros values.
  assert (H : isValid (validateLoginForm values) = true <->
              validateField Email (email values) = None
              /\ validateField Password (password values) = None).
  { unfold validateLoginForm. cbn [isValid]. rewrite Nat.eqb_eq, length_zero_iff_nil.
    unfold pushError.
    destruct (validateField Email (email values));
      destruct (validateField Password (password values)); simpl;
      split; try discriminate; try (intros [H1 H2]; discriminate); auto. }
  rewrite H, validateField_email_None, validateField_password_None. tauto.
Qed.

(** X4.  Looking up a field in a list of errors: [hasFieldError] holds exactly
    when [getFieldError] finds a message.  On the errors of
    [validateLoginForm] the message found for [email] and for [password] is
    the one [validateField] gives for that field of the form, and nothing is
    found for [rememberMe]. *)
Theorem getFieldError_of_validateLoginForm :
  (forall (errs : list FieldError) (f : Field),
      FieldErrors.hasFieldError errs f = true <->
      exists m, FieldErrors.getFieldError errs f = Some m)
  /\ (forall values : LoginFormValues,
         let errs := Types.errors (validateLoginForm values) in
         FieldErrors.getFieldError errs Email
         = option_map message (validateField Email (email values))
         /\ FieldErrors.getFieldError errs Password
            = option_map message (validateField Password (password values))
         /\ FieldErrors.getFieldError errs RememberMe = None).
Proof.
  split.
  - intros errs f. unfold FieldErrors.hasFieldError, FieldErrors.getFieldError.
    induction errs as [|e errs IH]; simpl.
    + split; [discriminate | intros [m H]; discriminate].
    + destruct (Field_eqb (field e) f); simpl; [|exact IH].
      split; eauto.
  - intros values errs. subst errs. rewrite validateLoginForm_errors.
    unfold FieldErrors.getFieldError.
    destruct (validateField Email (email values)) as [e1|] eqn:H1;
      destruct (validateField Password (password values)) as [e2|] eqn:H2;
      try apply validateField_field in H1; try apply validateField_field in H2;
      simpl; try rewrite H1; try rewrite H2; simpl; auto.
Qed.

(* ================================================================== *)
(** * Further properties of the redirect guard *)

Section GuardFacts.

Lemma startsWith_append s : forall p,
  startsWith s p = true -> exists r, s = p ++ r.
Proof.
  induction s as [|c s IH]; intros [|d p]; simpl; try discriminate; eauto.
  intros H. apply andb_true_iff in H as [Hc Hp].
  apply Ascii.eqb_eq in Hc. subst d.
  destruct (IH p Hp) as [r ->]. now exists r.
Qed.

Lemma startsWith_empty s : startsWith s "" = true.
Proof. destruct s; reflexivity. Qed.

Lemma trim_String_not_space c s :
  isWhiteSpace c = false -> exists t, trim (String c s) = String c t.
Proof.
  intros Hc. unfold trim. simpl. rewrite Hc. simpl.
  destruct (trimEnd s); [rewrite Hc|]; eauto.
Qed.

(** A string that begins with [/] and a character other than [/] passes the
    checks that come before the allow-list. *)
Lemma guard_reaches_allow_list c s :
  Ascii.eqb c "/" = false ->
  isValidRedirectUrl (String "/" (String c s))
  = existsb (fun path => (String "/" (String c s) =? path)%string
                         || startsWith (String "/" (String c s)) (path ++ "/"))
      allowedPaths.
Proof.
  intros Hc. unfold isValidRedirectUrl.
  destruct (trim_String_not_space "/" (String c s) eq_refl) as [t ->].
  simpl. rewrite Hc. reflexivity.
Qed.

End GuardFacts.

(** X5.  The URLs the guard accepts are exactly [/], [/dashboard],
    [/profile], [/settings] and the strings that begin with [/dashboard/],
    [/profile/] or [/settings/].  The root [/] of the allow-list admits no
    sub-path, since [//] is rejected before the list is consulted. *)
Theorem isValidRedirectUrl_accepted_set :
  forall url : string,
    isValidRedirectUrl url = true <->
    In url ["/"; "/dashboard"; "/profile"; "/settings"]
    \/ startsWith url "/dashboard/" = true
    \/ startsWith url "/profile/" = true
    \/ startsWith url "/settings/" = true.
Proof.
  intros url. split.
  - unfold isValidRedirectUrl.
    destruct ((url =? "")%string || (length (trim url) =? 0)); [discriminate|].
    destruct (startsWith url "//") eqn:E3;
      [rewrite !orb_true_r; discriminate|].
    destruct (startsWith url "http://" || startsWith url "https://" || false);
      [discriminate|].
    destruct (startsWith url "javascript:" || startsWith url "data:"); [discriminate|].
    destruct (negb (startsWith url "/")); [discriminate|].
    simpl. rewrite !orb_true_iff, !String.eqb_eq.
    intros [[H|H]|[[H|H]|[[H|H]|[[H|H]|H]]]]; simpl; try congruence; auto 10.
  - intros [H | H].
    + simpl in H.
      destruct H as [<-|[<-|[<-|[<-|[]]]]]; reflexivity.
    + destruct H as [H|[H|H]]; apply startsWith_append in H as [r ->]; simpl;
        rewrite guard_reaches_allow_list by reflexivity; simpl;
        rewrite startsWith_empty, ?orb_true_r; reflexivity.
Qed.

(** X6.  When the default passes the guard, or is omitted, the result of
    [getSafeRedirectUrl] passes the guard, whatever the candidate. *)
Theorem getSafeRedirectUrl_safe :
  forall (candidate defaultUrl : option string),
    match defaultUrl with
    | Some d => isValidRedirectUrl d = true
    | None => True
    end ->
    isValidRedirectUrl (getSafeRedirectUrl candidate defaultUrl) = true.
Proof.
  intros candidate defaultUrl Hd. unfold getSafeRedirectUrl.
  assert (H : isValidRedirectUrl
                match defaultUrl with Some d => d | None => "/dashboard" end = true).
  { destruct defaultUrl; [exact Hd | reflexivity]. }
  destruct candidate as [url|]; [|exact H].
  destruct (truthy url); simpl; [|exact H].
  destruct (isValidRedirectUrl url) eqn:E; [exact E | exact H].
Qed.

(** An off-site candidate with a safe default. *)
Lemma getSafeRedirectUrl_safe_witness :
  isValidRedirectUrl "/profile" = true
  /\ isValidRedirectUrl
       (getSafeRedirectUrl (Some "https://evil.example/login") (Some "/profile")) = true.
Proof.
  split; [reflexivity|].
  apply (getSafeRedirectUrl_safe (Some "https://evil.example/login") (Some "/profile")).
  reflexivity.
Defined.

(* ================================================================== *)
(** * Properties of the authentication client *)

Import AuthClient.

Section ClientFacts.

Lemma createAuthError_shape status data :
  code (createAuthError status data) <> SESSION_EXPIRED
  /\ details (createAuthError status data) = None.
Proof.
  unfold createAuthError, lookupStatus.
  repeat match goal with
         | |- context [?k =? status] => destruct (k =? status)
         end; simpl; split; (discriminate || reflexivity).
Qed.

Lemma createAuthError_ignores_data status data data' :
  status <> 0 -> createAuthError status data = createAuthError status data'.
Proof.
  intros Hs. unfold createAuthError, lookupStatus.
  repeat match goal with
         | |- context [?k =? status] => destruct (Nat.eqb_spec k status)
         end; congruence.
Qed.

End ClientFacts.

(** X7.  Unless the status is 0, the error [createAuthError] builds does not
    depend on the data it is given: the text a server sends never becomes
    the message.  A status without an entry, such as 404 or 503, gives
    [SERVER_ERROR] with a fixed message. *)
Theorem createAuthError_ignores_server_data :
  forall (status : nat) (data data' : ErrorData),
    status <> 0 ->
    createAuthError status data = createAuthError status data'
    /\ (~ In status [400; 401; 403; 408; 423; 429; 500] ->
        createAuthError status data
        = mkAuthError SERVER_ERROR "An unexpected error occurred" None).
Proof.
  intros status data data' Hs.
  split; [now apply createAuthError_ignores_data|].
  intros Hnot. unfold createAuthError, lookupStatus.
  repeat match goal with
         | |- context [?k =? status] => destruct (Nat.eqb_spec k status)
         end; try reflexivity; exfalso; subst; simpl in Hnot; tauto.
Qed.

(** A 401 answer whose body names the failing field. *)
Lemma createAuthError_ignores_server_data_witness :
  401 <> 0
  /\ createAuthError 401 (mkErrorData (Some "unknown user alice@example.com"))
     = mkAuthError INVALID_CREDENTIALS "Invalid email or password" None.
Proof.
  split; [discriminate|].
  destruct (createAuthError_ignores_server_data 401
              (mkErrorData (Some "unknown user alice@example.com")) (mkErrorData None))
    as [H _]; [discriminate|].
  rewrite H. reflexivity.
Defined.

(** X8.  How [login] can fail.  It rejects either with an [AuthError], whose
    code is never [SESSION_EXPIRED] and which has no details, or with an
    [Error] that is neither named [AbortError] nor a [TypeError]; the latter
    is the failure of [fetch] itself or of reading the body of a 2xx
    response, passed on as it is.  It resolves exactly for a 2xx response
    whose body was read, with that body. *)
Theorem login_settles :
  forall (T : Type) (outcome : FetchOutcome T),
    (forall reason,
        AuthClient.login outcome = Rejected reason ->
        (exists e,
            reason = ThrownAuthError e
            /\ code e <> SESSION_EXPIRED /\ details e = None)
        \/ (exists err,
               reason = ThrownError err
               /\ error_name err <> "AbortError"
               /\ isTypeError err = false
               /\ (outcome = Failed err
                   \/ exists status,
                        responseOk status = true
                        /\ outcome = Responded status (ParseFailed err))))
    /\ (forall body,
           AuthClient.login outcome = Resolved body <->
           exists status,
             responseOk status = true /\ outcome = Responded status (Parsed body)).
Proof.
  intros T outcome.
  assert (Hthrow : forall err reason,
             rethrow (ThrownError err) = reason ->
             (exists e, reason = ThrownAuthError e
                        /\ code e <> SESSION_EXPIRED /\ details e = None)
             \/ (reason = ThrownError err
                 /\ error_name err <> "AbortError" /\ isTypeError err = false)).
  { intros err reason <-. unfold rethrow.
    destruct (String.eqb_spec (error_name err) "AbortError") as [E|E].
    - left. eexists. split; [reflexivity | apply createAuthError_shape].
    - destruct (isTypeError err) eqn:Et.
      + left. eexists. split; [reflexivity | apply createAuthError_shape].
      + right. auto. }
  split.
  - intros reason. unfold AuthClient.login, fetchWithTimeout.
    destruct outcome as [status json|err].
    + destruct (responseOk status) eqn:Hok; cbn [negb].
      * destruct json as [body|err]; [discriminate|].
        intros H. injection H as H'.
        destruct (Hthrow _ _ H') as [Hl|(E & Hn & Ht)]; [left; exact Hl|].
        right. exists err. repeat split; auto. right. now exists status.
      * destruct (errorDataOf json) as [data|].
        -- intros H. injection H as H'. subst reason. left. eexists.
           split; [reflexivity | apply createAuthError_shape].
        -- intros H. injection H as H'. subst reason. left. eexists.
           split; [reflexivity | apply createAuthError_shape].
    + intros H. injection H as H'.
      destruct (Hthrow _ _ H') as [Hl|(E & Hn & Ht)]; [left; exact Hl|].
      right. exists err. auto.
  - intros body. unfold AuthClient.login, fetchWithTimeout.
    destruct outcome as [status json|err].
    + destruct (responseOk status) eqn:Hok; cbn [negb].
      * destruct json as [b|err]; split.
        -- intros H. inversion H; subst. now exists status.
        -- intros (s & _ & H). inversion H; subst. reflexivity.
        -- discriminate.
        -- intros (s & _ & H). discriminate.
      * destruct (errorDataOf json); split; try discriminate;
          intros (s & Hs & H); inversion H; subst; congruence.
    + split; [discriminate | intros (s & _ & H); discriminate].
Qed.

(** A 200 answer whose body is not JSON: the parse error itself comes out
    of [login]. *)
Lemma login_settles_witness :
  AuthClient.login (Responded 200 (@ParseFailed unit (mkJsError "SyntaxError" false)))
  = Rejected (ThrownError (mkJsError "SyntaxError" false))
  /\ exists err,
       error_name err <> "AbortError"
       /\ isTypeError err = false
       /\ (Responded 200 (@ParseFailed unit (mkJsError "SyntaxError" false)) = Failed err
           \/ exists status,
                responseOk status = true
                /\ Responded 200 (@ParseFailed unit (mkJsError "SyntaxError" false))
                   = Responded status (ParseFailed err)).
Proof.
  split; [reflexivity|].
  destruct (login_settles unit
              (Responded 200 (ParseFailed (mkJsError "SyntaxError" false)))) as [H _].
  destruct (H _ eq_refl) as [(e & E & _) | (err & E & Hn & Ht & Ho)]; [discriminate E|].
  exists err. auto.
Defined.

(** X9.  A response outside 200..299 with a status other than 0 makes [login]
    reject with the error of [createAuthError] for the status alone, whether
    the body holds a message, holds none or could not be parsed.  The one
    exception is a body that is the JSON value [null]: reading its message
    fails, and [login] rejects with the [NETWORK_ERROR] of a lost
    connection, whatever the status. *)
Theorem login_error_response :
  forall (T : Type) (status : nat) (json : JsonOutcome T),
    responseOk status = false ->
    status <> 0 ->
    AuthClient.login (Responded status json)
    = Rejected
        (ThrownAuthError
           (match json with
            | Parsed JsonNull =>
                mkAuthError NETWORK_ERROR "Network error - please check your connection" None
            | _ => createAuthError status (mkErrorData None)
            end)).
Proof.
  intros T status json Hok Hs. unfold AuthClient.login, fetchWithTimeout.
  rewrite Hok. cbn [negb].
  destruct json as [[|value data]|err]; cbn [errorDataOf]; try reflexivity.
  simpl. now rewrite (createAuthError_ignores_data status data (mkErrorData None)).
Qed.

(** A 401 with a revealing body, and a 401 with the body [null]. *)
Lemma login_error_response_witness :
  responseOk 401 = false
  /\ 401 <> 0
  /\ AuthClient.login
       (Responded 401 (Parsed (JsonData tt (mkErrorData (Some "wrong password")))))
     = Rejected (ThrownAuthError
                   (mkAuthError INVALID_CREDENTIALS "Invalid email or password" None))
  /\ AuthClient.login (Responded 401 (Parsed (@JsonNull unit)))
     = Rejected (ThrownAuthError
                   (mkAuthError NETWORK_ERROR
                      "Network error - please check your connection" None)).
Proof.
  split; [reflexivity|]. split; [discriminate|]. split.
  - rewrite (login_error_response unit 401 _ eq_refl); [reflexivity | discriminate].
  - rewrite (login_error_response unit 401 _ eq_refl); [reflexivity | discriminate].
Defined.

(** X10.  When [fetch] itself fails: an error named [AbortError], which is
    what the timeout produces, becomes [NETWORK_ERROR] with the timeout
    message of the table, not the text passed along; any other [TypeError]
    becomes [NETWORK_ERROR] with the lost-connection message; any other
    error is passed on unchanged. *)
Theorem login_fetch_failure :
  forall (T : Type) (err : JsError),
    @AuthClient.login T (Failed err)
    = Rejected
        (if (error_name err =? "AbortError")%string then
           ThrownAuthError
             (mkAuthError NETWORK_ERROR "Request timeout - please try again" None)
         else if isTypeError err then
           ThrownAuthError
             (mkAuthError NETWORK_ERROR "Network error - please check your connection" None)
         else ThrownError err).
Proof.
  intros T err. unfold AuthClient.login, fetchWithTimeout, rethrow.
  destruct (error_name err =? "AbortError")%string; [reflexivity|].
  destruct (isTypeError err); reflexivity.
Qed.

(* ================================================================== *)
(** * Further properties of the submission state machine *)

Import Invariants.

Section ErrorListFacts.

(** Lists of errors with at most one error per field. *)
Lemma withoutField_not_in f errs : ~ In f (map field (withoutField f errs)).
Proof.
  unfold withoutField. induction errs as [|e errs IH]; simpl; [tauto|].
  destruct (Field_eqb (field e) f) eqn:E; simpl; [exact IH|].
  intros [H|H]; [|tauto]. apply Field_eqb_eq in H. congruence.
Qed.

Lemma withoutField_In f errs e : In e (withoutField f errs) -> In e errs.
Proof. unfold withoutField. rewrite filter_In. tauto. Qed.

Lemma withoutField_NoDup f errs :
  NoDup (map field errs) -> NoDup (map field (withoutField f errs)).
Proof.
  unfold withoutField. induction errs as [|e errs IH]; simpl; intros H; [constructor|].
  inversion H as [|x l Hnot Hnd]; subst.
  destruct (negb (Field_eqb (field e) f)); simpl; auto.
  constructor; auto. intros Hin. apply Hnot.
  apply in_map_iff in Hin as (e' & E & Hin). apply in_map_iff. exists e'.
  split; [exact E|]. apply filter_In in Hin. tauto.
Qed.

Lemma NoDup_snoc (l : list Field) x : NoDup l -> ~ In x l -> NoDup (l ++ [x]).
Proof.
  induction l as [|y l IH]; simpl; intros Hnd Hnot.
  - constructor; [tauto | constructor].
  - inversion Hnd; subst. constructor.
    + rewrite in_app_iff. simpl. intros [H|[H|[]]]; [tauto | subst; tauto].
    + apply IH; tauto.
Qed.

Lemma fromValidator_intro f v e : validateField f v = Some e -> fromValidator e.
Proof.
  intros H. exists v. now rewrite (validateField_field f v e H).
Qed.

Lemma replaceFieldError_NoDup f v errs :
  NoDup (map field errs) ->
  NoDup (map field (replaceFieldError f (validateField f v) errs)).
Proof.
  intros H. unfold replaceFieldError.
  destruct (validateField f v) as [e|] eqn:E; [|now apply withoutField_NoDup].
  rewrite map_app. simpl. apply NoDup_snoc; [now apply withoutField_NoDup|].
  rewrite (validateField_field f v e E). apply withoutField_not_in.
Qed.

Lemma replaceFieldError_Forall f v errs :
  Forall fromValidator errs ->
  Forall fromValidator (replaceFieldError f (validateField f v) errs).
Proof.
  intros H. unfold replaceFieldError.
  assert (Hw : Forall fromValidator (withoutField f errs)).
  { rewrite Forall_forall in *. intros e He. apply H. eapply withoutField_In; eauto. }
  destruct (validateField f v) as [e|] eqn:E; [|exact Hw].
  apply Forall_app. split; [exact Hw|].
  constructor; [|constructor]. eapply fromValidator_intro; eauto.
Qed.

Lemma validateLoginForm_errors_NoDup values :
  NoDup (map field (Types.errors (validateLoginForm values)))
  /\ Forall fromValidator (Types.errors (validateLoginForm values)).
Proof.
  rewrite validateLoginForm_errors.
  destruct (validateField Email (email values)) as [e1|] eqn:H1;
    destruct (validateField Password (password values)) as [e2|] eqn:H2;
    simpl; split;
    repeat (constructor; eauto using fromValidator_intro);
    try rewrite (validateField_field _ _ _ H1);
    try rewrite (validateField_field _ _ _ H2);
    simpl; intuition discriminate.
Qed.

(** Looking a field up among the errors of the form validator. *)
Lemma find_validateLoginForm_errors values f :
  option_map message
    (find (fun err => Field_eqb (field err) f) (Types.errors (validateLoginForm values)))
  = match getField f values with
    | StringValue s => option_map message (validateField f s)
    | BooleanValue _ => None
    end.
Proof.
  rewrite validateLoginForm_errors.
  destruct (validateField Email (email values)) as [e1|] eqn:H1;
    destruct (validateField Password (password values)) as [e2|] eqn:H2;
    try pose proof (validateField_field _ _ _ H1) as F1;
    try pose proof (validateField_field _ _ _ H2) as F2;
    destruct f; simpl; try rewrite F1; try rewrite F2; simpl;
    try rewrite H1; try rewrite H2; reflexivity.
Qed.

Lemma find_withoutField_same f errs :
  find (fun err => Field_eqb (field err) f) (withoutField f errs) = None.
Proof.
  unfold withoutField. induction errs as [|e errs IH]; simpl; [reflexivity|].
  destruct (Field_eqb (field e) f) eqn:E; simpl; [exact IH|]. now rewrite E.
Qed.

Lemma find_withoutField_other f g errs :
  f <> g ->
  find (fun err => Field_eqb (field err) g) (withoutField f errs)
  = find (fun err => Field_eqb (field err) g) errs.
Proof.
  intros Hfg. unfold withoutField. induction errs as [|e errs IH]; simpl; [reflexivity|].
  destruct (Field_eqb (field e) f) eqn:E; simpl.
  - apply Field_eqb_eq in E.
    destruct (Field_eqb (field e) g) eqn:G; [|exact IH].
    apply Field_eqb_eq in G. congruence.
  - destruct (Field_eqb (field e) g); [reflexivity | exact IH].
Qed.

Lemma find_snoc (p : FieldError -> bool) errs e :
  find p (errs ++ [e])
  = match find p errs with
    | Some x => Some x
    | None => if p e then Some e else None
    end.
Proof.
  induction errs as [|x errs IH]; simpl; [reflexivity|].
  destruct (p x); [reflexivity | exact IH].
Qed.

(** After [replaceFieldError], the entry of field [f] is the new result. *)
Lemma find_replaceFieldError_same f v errs :
  find (fun err => Field_eqb (field err) f)
    (replaceFieldError f (validateField f v) errs)
  = validateField f v.
Proof.
  unfold replaceFieldError.
  destruct (validateField f v) as [e|] eqn:E.
  - rewrite find_snoc, find_withoutField_same.
    rewrite (validateField_field f v e E).
    now rewrite (proj2 (Field_eqb_eq f f) eq_refl).
  - apply find_withoutField_same.
Qed.

(** ... and the entries of the other fields stay. *)
Lemma find_replaceFieldError_other f g v errs :
  f <> g ->
  find (fun err => Field_eqb (field err) g)
    (replaceFieldError f (validateField f v) errs)
  = find (fun err => Field_eqb (field err) g) errs.
Proof.
  intros Hfg. unfold replaceFieldError.
  destruct (validateField f v) as [e|] eqn:E.
  - rewrite find_snoc, (find_withoutField_other f g errs Hfg).
    destruct (find _ errs); [reflexivity|].
    rewrite (validateField_field f v e E).
    destruct (Field_eqb f g) eqn:G; [|reflexivity].
    apply Field_eqb_eq in G. congruence.
  - now apply find_withoutField_other.
Qed.

End ErrorListFacts.

Section HookFacts.

Variable opts : UseLoginOptions.

(** What the handlers do to the stored errors and to the other cells. *)
Lemma handleChange_errors f value st st' :
  handleChange opts f value st = Some st' ->
  errors st'
  = if validateOnChange opts then
      match value with
      | StringValue s => replaceFieldError f (validateField f s) (errors st)
      | BooleanValue _ => withoutField f (errors st)
      end
    else errors st.
Proof.
  unfold handleChange. destruct (setField _ _ _); [|discriminate].
  intros H; inversion H; subst; clear H.
  destruct (authError st), (validateOnChange opts), value; reflexivity.
Qed.

Lemma handleChange_touched_authError f value st st' :
  handleChange opts f value st = Some st' ->
  touched st' = touched st /\ authError st' = None.
Proof.
  unfold handleChange. destruct (setField _ _ _); [|discriminate].
  intros H; inversion H; subst; clear H.
  destruct (authError st) eqn:E, (validateOnChange opts), value; simpl; auto.
Qed.

Lemma handleBlur_errors f st :
  errors (handleBlur opts f st)
  = if validateOnBlur opts then
      match getField f (values st) with
      | StringValue s => replaceFieldError f (validateField f s) (errors st)
      | BooleanValue _ => errors st
      end
    else errors st.
Proof.
  unfold handleBlur.
  destruct (validateOnBlur opts); [destruct (getField f (values st))|]; reflexivity.
Qed.

Lemma handleBlur_cells f st :
  touched (handleBlur opts f st) = touch f (touched st)
  /\ submissionState (handleBlur opts f st) = submissionState st
  /\ authError (handleBlur opts f st) = authError st.
Proof.
  unfold handleBlur.
  destruct (validateOnBlur opts); [destruct (getField f (values st))|]; auto.
Qed.

Lemma handleSubmit_errors st :
  isSubmittingRef st = false ->
  errors (handleSubmit st) = Types.errors (validateLoginForm (values st))
  /\ touched (handleSubmit st) = allTouched.
Proof.
  intros Hf. unfold handleSubmit. rewrite Hf.
  destruct (isValid (validateLoginForm (values st))); auto.
Qed.

End HookFacts.

Section HookInvariants.

Variable opts : UseLoginOptions.

(** The flag is set exactly in [submitting], and then a call is
    outstanding. *)
Lemma flag_state_invariant allowed st :
  reachableBy allowed opts st ->
  (isSubmittingRef st = true /\ submissionState st = submitting /\ pending st <> [])
  \/ (isSubmittingRef st = false /\ submissionState st <> submitting).
Proof.
  induction 1 as [|st ev st' Hreach IH _ Hstep];
    [right; split; [reflexivity | discriminate]|].
  destruct ev as [f value| f | | |call response|call err|call response thrown];
    simpl in Hstep.
  - apply handleChange_frame in Hstep as (-> & -> & _ & ->). exact IH.
  - inversion Hstep; subst.
    destruct (handleBlur_frame opts f st) as (-> & -> & _).
    destruct (handleBlur_cells opts f st) as (_ & -> & _). exact IH.
  - inversion Hstep; subst. unfold handleSubmit.
    destruct IH as [(Hf & Hs & Hp) | (Hf & Hs)]; rewrite Hf; [left; auto|].
    destruct (isValid (validateLoginForm (values st))); cbn [negb].
    + left. repeat split; auto. simpl. now destruct (pending st).
    + right. split; [exact Hf | discriminate].
  - inversion Hstep; subst. right. split; [reflexivity | discriminate].
  - destruct (isPending call st); inversion Hstep; subst. right.
    unfold loginResolved. destruct (onSuccess opts); split; (reflexivity || discriminate).
  - destruct (isPending call st); inversion Hstep; subst. right.
    unfold loginRejected. destruct (onError opts); split; (reflexivity || discriminate).
  - destruct (isPending call st && onSuccess opts); inversion Hstep; subst. right.
    unfold successCallbackThrew, loginRejected.
    destruct (onError opts); split; (reflexivity || discriminate).
Qed.

Lemma isPending_head c l st :
  pending st = c :: l -> isPending c st = true.
Proof. unfold isPending. intros ->. simpl. now rewrite Nat.eqb_refl. Qed.

(** The stored errors: at most one per field, each from the validator. *)
Lemma errors_invariant allowed st :
  reachableBy allowed opts st ->
  NoDup (map field (errors st)) /\ Forall fromValidator (errors st).
Proof.
  induction 1 as [|st ev st' Hreach IH _ Hstep];
    [split; constructor|].
  destruct IH as [IHn IHf].
  destruct ev as [f value| f | | |call response|call err|call response thrown];
    simpl in Hstep.
  - rewrite (handleChange_errors opts _ _ _ _ Hstep).
    destruct (validateOnChange opts); [|auto].
    destruct value as [s|b].
    + split; [now apply replaceFieldError_NoDup | now apply replaceFieldError_Forall].
    + split; [now apply withoutField_NoDup|].
      rewrite Forall_forall in *. intros e He. apply IHf.
      eapply withoutField_In; eauto.
  - inversion Hstep; subst. rewrite handleBlur_errors.
    destruct (validateOnBlur opts); [|auto].
    destruct (getField f (values st)) as [s|b]; [|auto].
    split; [now apply replaceFieldError_NoDup | now apply replaceFieldError_Forall].
  - inversion Hstep; subst.
    destruct (isSubmittingRef st) eqn:Hf.
    + rewrite (handleSubmit_guard st Hf). auto.
    + rewrite (proj1 (handleSubmit_errors st Hf)). apply validateLoginForm_errors_NoDup.
  - inversion Hstep; subst. split; constructor.
  - destruct (isPending call st); inversion Hstep; subst.
    unfold loginResolved. destruct (onSuccess opts); auto.
  - destruct (isPending call st); inversion Hstep; subst.
    unfold loginRejected. destruct (onError opts); auto.
  - destruct (isPending call st && onSuccess opts); inversion Hstep; subst.
    unfold successCallbackThrew, loginRejected. destruct (onError opts); auto.
Qed.

Lemma fromValidator_field e : fromValidator e -> field e <> RememberMe.
Proof.
  intros [v H] E. rewrite E in H. discriminate H.
Qed.

(** Without a reset in flight: no authentication error is stored while a
    call is outstanding, and one is stored only in [error]. *)
Lemma authError_invariant st :
  reachableBy noResetInFlight opts st ->
  (pending st <> [] -> authError st = None)
  /\ (authError st <> None -> submissionState st = error).
Proof.
  induction 1 as [|st ev st' Hreach IH Hallowed Hstep];
    [split; [reflexivity | intros H; now elim H]|].
  pose proof (flag_tracks_pending opts st Hreach) as Hflag.
  destruct IH as [IHp IHa].
  destruct ev as [f value| f | | |call response|call err|call response thrown];
    simpl in Hstep.
  - destruct (handleChange_touched_authError opts _ _ _ _ Hstep) as [_ ->].
    split; [reflexivity | intros H; now elim H].
  - inversion Hstep; subst.
    destruct (handleBlur_frame opts f st) as (_ & -> & _).
    destruct (handleBlur_cells opts f st) as (_ & -> & ->). auto.
  - inversion Hstep; subst. unfold handleSubmit.
    destruct (isSubmittingRef st) eqn:Hf; [auto|].
    destruct Hflag as [[Hf' _] | [_ Hp]]; [congruence|].
    destruct (isValid (validateLoginForm (values st))); cbn [negb].
    + split; [reflexivity | intros H; now elim H].
    + split; [simpl; intros H; congruence | reflexivity].
  - inversion Hstep; subst. split; [reflexivity | intros H; now elim H].
  - destruct (isPending call st) eqn:Hpend; inversion Hstep; subst.
    assert (Hne : pending st <> []).
    { unfold isPending in Hpend. intros E. rewrite E in Hpend. discriminate. }
    assert (Hnone : authError st = None) by auto.
    destruct Hflag as [[_ [c Hp]] | [_ Hp]]; [|congruence].
    unfold isPending in Hpend. rewrite Hp in Hpend. simpl in Hpend.
    rewrite orb_false_r in Hpend. apply Nat.eqb_eq in Hpend. subst c.
    unfold loginResolved. destruct (onSuccess opts); simpl; rewrite Hnone;
      (split; [reflexivity | intros H; now elim H]).
  - destruct (isPending call st) eqn:Hpend; inversion Hstep; subst.
    destruct Hflag as [[_ [c Hp]] | [_ Hp]];
      unfold isPending in Hpend; rewrite Hp in Hpend; simpl in Hpend; [|discriminate].
    rewrite orb_false_r in Hpend. apply Nat.eqb_eq in Hpend. subst c.
    unfold loginRejected. destruct (onError opts); simpl; rewrite Hp; simpl;
      rewrite Nat.eqb_refl; simpl; (split; [intros H; now elim H | reflexivity]).
  - destruct (isPending call st && onSuccess opts) eqn:Hboth; inversion Hstep; subst.
    apply andb_true_iff in Hboth as [Hpend _].
    destruct Hflag as [[_ [c Hp]] | [_ Hp]];
      unfold isPending in Hpend; rewrite Hp in Hpend; simpl in Hpend; [|discriminate].
    rewrite orb_false_r in Hpend. apply Nat.eqb_eq in Hpend. subst c.
    unfold successCallbackThrew, loginRejected. destruct (onError opts); simpl;
      rewrite Hp; simpl; rewrite Nat.eqb_refl; simpl;
      (split; [intros H; now elim H | reflexivity]).
Qed.

End HookInvariants.

(** X11.  In every reachable state the re-entrancy flag is set exactly when
    the submission state is [submitting], so the hook's [isSubmitting] tells
    whether a submit would be ignored; and in [submitting] a call of [login]
    is outstanding. *)
Theorem guard_flag_matches_state :
  forall (opts : UseLoginOptions) (st : HookState),
    reachable opts st ->
    (isSubmittingRef st = true <-> submissionState st = submitting)
    /\ isSubmitting st = isSubmittingRef st
    /\ (if isSubmitting st then exists call, isPending call st = true else True).
Proof.
  intros opts st Hreach. unfold isSubmitting.
  destruct (flag_state_invariant opts _ st Hreach) as [(Hf & Hs & Hp) | (Hf & Hs)];
    rewrite Hf.
  - rewrite Hs. simpl. repeat split; auto.
    destruct (pending st) as [|c l] eqn:E; [congruence|].
    exists c. eapply isPending_head; eauto.
  - destruct (submissionState st); simpl; repeat split; auto; try discriminate;
      congruence.
Qed.

(** After a submit of valid credentials. *)
Lemma guard_flag_matches_state_witness :
  reachable defaultOptions submittedState
  /\ isSubmitting submittedState = true
  /\ isSubmittingRef submittedState = true
  /\ exists call, isPending call submittedState = true.
Proof.
  assert (R : reachable defaultOptions submittedState).
  { apply (run_reachable defaultOptions
             (fillForm "user@example.com" "password123" ++ [Submit])%list).
    reflexivity. }
  split; [exact R|].
  destruct (guard_flag_matches_state defaultOptions submittedState R) as (_ & H1 & H2).
  split; [reflexivity|]. split; [reflexivity|]. exact H2.
Defined.

(** X12.  In a reachable state a submit calls [login] exactly when the hook's
    [canSubmit] is true, and then once, with the stored values. *)
Theorem canSubmit_decides_submit :
  forall (opts : UseLoginOptions) (st : HookState),
    reachable opts st ->
    exists st',
      step opts Submit st = Some st'
      /\ loginCalls (trace st')
         = (loginCalls (trace st)
            ++ if canSubmit st
               then [ {| cred_email := email (values st);
                         cred_password := password (values st);
                         cred_rememberMe := rememberMe (values st) |} ]
               else [])%list.
Proof.
  intros opts st Hreach. exists (handleSubmit st). split; [reflexivity|].
  unfold canSubmit, canSubmitForm.
  destruct (flag_state_invariant opts _ st Hreach) as [(Hf & Hs & Hp) | (Hf & Hs)].
  - rewrite (handleSubmit_guard st Hf), Hs. simpl. now rewrite app_nil_r.
  - assert (E : SubmissionState_eqb (submissionState st) submitting = false)
      by (destruct (submissionState st); auto; congruence).
    rewrite E.
    destruct (isValid (validateLoginForm (values st))) eqn:Hv.
    + rewrite (handleSubmit_valid st Hf Hv). simpl. now rewrite loginCalls_app.
    + rewrite (handleSubmit_invalid st Hf Hv). simpl. now rewrite app_nil_r.
Qed.

(** A filled form, where [canSubmit] is true. *)
Lemma canSubmit_decides_submit_witness :
  reachable defaultOptions filledState
  /\ canSubmit filledState = true
  /\ exists st',
       step defaultOptions Submit filledState = Some st'
       /\ List.length (loginCalls (trace st')) = 1.
Proof.
  assert (R : reachable defaultOptions filledState).
  { apply (run_reachable defaultOptions (fillForm "user@example.com" "password123")).
    reflexivity. }
  split; [exact R|]. split; [reflexivity|].
  destruct (canSubmit_decides_submit defaultOptions filledState R) as (st' & Hstep & Hcalls).
  exists st'. split; [exact Hstep|]. rewrite Hcalls. reflexivity.
Defined.

(** X13.  In every reachable state the stored field errors hold at most one
    error per field, none for [rememberMe], hence at most two, and each is an
    error [validateField] produces for its field. *)
Theorem stored_errors_invariant :
  forall (opts : UseLoginOptions) (st : HookState),
    reachable opts st ->
    NoDup (map field (errors st))
    /\ Forall fromValidator (errors st)
    /\ ~ In RememberMe (map field (errors st))
    /\ List.length (errors st) <= 2.
Proof.
  intros opts st Hreach.
  destruct (errors_invariant opts _ st Hreach) as [Hn Hf].
  assert (Hr : ~ In RememberMe (map field (errors st))).
  { intros Hin. apply in_map_iff in Hin as (e & E & Hin).
    rewrite Forall_forall in Hf. exact (fromValidator_field e (Hf e Hin) E). }
  repeat split; auto.
  destruct (errors st) as [|a [|b [|c l]]]; simpl; try lia.
  exfalso. simpl in Hn, Hr.
  inversion Hn as [|x1 l1 N1 Hn1]; subst. inversion Hn1 as [|x2 l2 N2 Hn2]; subst.
  inversion Hn2 as [|x3 l3 N3 _]; subst. simpl in N1, N2.
  destruct (field a), (field b), (field c); tauto.
Qed.

(** Validation on change: two edits of the email and one of the password
    leave one error per field. *)
Lemma stored_errors_invariant_witness :
  exists st,
    run (mkUseLoginOptions false false true true)
      [Change Email (StringValue "a"); Change Email (StringValue "ab");
       Change Password (StringValue "x")] initialState = Some st
    /\ map field (errors st) = [Email; Password]
    /\ NoDup (map field (errors st))
    /\ List.length (errors st) <= 2.
Proof.
  eexists. split; [reflexivity|]. split; [reflexivity|].
  assert (R : reachable (mkUseLoginOptions false false true true)
                (setErrors
                   [mkFieldError Email "Please enter a valid email address" format;
                    mkFieldError Password "Password must be at least 8 characters" minLength]
                   (setValues (mkLoginFormValues "ab" "x" false) initialState))).
  { apply (run_reachable _
             [Change Email (StringValue "a"); Change Email (StringValue "ab");
              Change Password (StringValue "x")]).
    reflexivity. }
  destruct (stored_errors_invariant _ _ R) as (Hn & _ & _ & Hl).
  split; [exact Hn | exact Hl].
Defined.

(** X14.  With validation on blur, after the blur of a text field the hook
    shows for it the message [validateField] gives for its current value, or
    nothing when the value passes; what is shown for the other fields does
    not change. *)
Theorem blur_shows_validation :
  forall (opts : UseLoginOptions) (st : HookState) (f : Field) (s : string),
    validateOnBlur opts = true ->
    getField f (values st) = StringValue s ->
    UseLoginView.getFieldError (handleBlur opts f st) f
    = option_map message (validateField f s)
    /\ forall g, g <> f ->
         UseLoginView.getFieldError (handleBlur opts f st) g
         = UseLoginView.getFieldError st g.
Proof.
  intros opts st f s Hb Hs. unfold UseLoginView.getFieldError.
  rewrite handleBlur_errors, Hb, Hs.
  destruct (handleBlur_cells opts f st) as (-> & _). split.
  - rewrite find_replaceFieldError_same.
    assert (Ht : UseLoginView.isTouched (touch f (touched st)) f = true)
      by (destruct f; reflexivity).
    rewrite Ht. simpl. now destruct (validateField f s).
  - intros g Hg.
    assert (Ht : UseLoginView.isTouched (touch f (touched st)) g
                 = UseLoginView.isTouched (touched st) g)
      by (destruct f, g; try reflexivity; congruence).
    rewrite Ht, find_replaceFieldError_other by congruence. reflexivity.
Qed.

(** Leaving the password field of a fresh form. *)
Lemma blur_shows_validation_witness :
  validateOnBlur defaultOptions = true
  /\ getField Password (values initialState) = StringValue ""
  /\ UseLoginView.getFieldError (handleBlur defaultOptions Password initialState) Password
     = Some "Password is required"
  /\ UseLoginView.getFieldError (handleBlur defaultOptions Password initialState) Email
     = None.
Proof.
  split; [reflexivity|]. split; [reflexivity|].
  destruct (blur_shows_validation defaultOptions initialState Password "" eq_refl eq_refl)
    as [H1 H2].
  split; [rewrite H1; reflexivity|].
  rewrite (H2 Email); [reflexivity | discriminate].
Defined.

(** X15.  After a submit that passes the guard, the hook shows for [email]
    and for [password] the message [validateField] gives for the stored
    value, or nothing when it passes, and nothing for [rememberMe]. *)
Theorem submit_shows_validation :
  forall (opts : UseLoginOptions) (st : HookState) (f : Field),
    isSubmittingRef st = false ->
    exists st',
      step opts Submit st = Some st'
      /\ UseLoginView.getFieldError st' f
         = match getField f (values st) with
           | StringValue s => option_map message (validateField f s)
           | BooleanValue _ => None
           end
      /\ UseLoginView.hasFieldError st' f
         = match UseLoginView.getFieldError st' f with
           | Some _ => true
           | None => false
           end.
Proof.
  intros opts st f Hf. exists (handleSubmit st). split; [reflexivity|].
  unfold UseLoginView.getFieldError, UseLoginView.hasFieldError.
  destruct (handleSubmit_errors st Hf) as [-> ->].
  assert (Ht : UseLoginView.isTouched allTouched f = true) by (destruct f; reflexivity).
  assert (Ht' : UseLoginView.touchedOf allTouched f = Some true) by (destruct f; reflexivity).
  rewrite Ht, Ht'. cbn [negb].
  rewrite <- find_validateLoginForm_errors. split.
  - now destruct (find _ _).
  - induction (Types.errors (validateLoginForm (values st))) as [|e l IH]; simpl;
      [reflexivity|].
    destruct (Field_eqb (field e) f); [reflexivity | exact IH].
Qed.

(** Submitting the empty form shows both required messages. *)
Lemma submit_shows_validation_witness :
  isSubmittingRef initialState = false
  /\ exists st',
       step defaultOptions Submit initialState = Some st'
       /\ UseLoginView.getFieldError st' Email = Some "Email is required".
Proof.
  split; [reflexivity|].
  destruct (submit_shows_validation defaultOptions initialState Email eq_refl)
    as (st' & Hstep & Hget & _).
  exists st'. split; [exact Hstep|]. rewrite Hget. reflexivity.
Defined.

(** X16.  With validation on change, after a change the stored error of the
    changed field is the one [validateField] gives for the value handed to
    [handleChange], that is the text as typed, and there is none after a
    boolean; the stored errors of the other fields do not change.  For
    [password] the value validated is the value stored; for [email] the
    value stored is its sanitized form. *)
Theorem change_validates_typed_value :
  forall (opts : UseLoginOptions) (st st' : HookState) (f : Field) (value : FieldValue),
    validateOnChange opts = true ->
    step opts (Change f value) st = Some st' ->
    find (fun err => Field_eqb (field err) f) (errors st')
    = match value with
      | StringValue s => validateField f s
      | BooleanValue _ => None
      end
    /\ getField f (values st')
       = match f, value with
         | Email, StringValue s => StringValue (sanitizeEmail s)
         | _, _ => value
         end
    /\ forall g, g <> f ->
         find (fun err => Field_eqb (field err) g) (errors st')
         = find (fun err => Field_eqb (field err) g) (errors st).
Proof.
  intros opts st st' f value Hc Hstep. simpl in Hstep.
  rewrite (handleChange_errors opts _ _ _ _ Hstep), Hc.
  apply handleChange_values in Hstep.
  destruct f, value as [s|b]; simpl in Hstep; inversion Hstep as [E]; simpl;
    repeat split;
    try (intros g Hg; apply find_replaceFieldError_other; congruence);
    try (intros g Hg; apply find_withoutField_other; congruence);
    try apply find_replaceFieldError_same;
    try apply find_withoutField_same.
Qed.

(** Typing a password that is too short, after an email error was stored. *)
Lemma change_validates_typed_value_witness :
  validateOnChange (mkUseLoginOptions false false true true) = true
  /\ step (mkUseLoginOptions false false true true)
       (Change Password (StringValue "short"))
       (setErrors [mkFieldError Email "Email is required" required] initialState)
     = Some (setErrors
               [mkFieldError Email "Email is required" required;
                mkFieldError Password "Password must be at least 8 characters" minLength]
               (setValues (mkLoginFormValues "" "short" false) initialState))
  /\ find (fun err => Field_eqb (field err) Password)
       [mkFieldError Email "Email is required" required;
        mkFieldError Password "Password must be at least 8 characters" minLength]
     = validateField Password "short".
Proof.
  split; [reflexivity|]. split; [reflexivity|].
  destruct (change_validates_typed_value (mkUseLoginOptions false false true true)
              (setErrors [mkFieldError Email "Email is required" required] initialState)
              (setErrors
                 [mkFieldError Email "Email is required" required;
                  mkFieldError Password "Password must be at least 8 characters" minLength]
                 (setValues (mkLoginFormValues "" "short" false) initialState))
              Password (StringValue "short") eq_refl eq_refl)
    as [H _].
  exact H.
Defined.

(** X17.  When an outstanding call of [login] resolves with [response]:
    if no success callback was supplied, or it returns, the machine moves to
    [success] and the callback, when supplied, received [response] once; the
    stored authentication error is left as it is.  If the success callback
    throws, the machine ends in [error] instead, the thrown value is stored
    as the authentication error and handed to the error callback when one
    was supplied.  Either way the re-entrancy flag is cleared, the call is no
    longer outstanding and the form is left as it is. *)
Theorem login_resolved_outcomes :
  forall (opts : UseLoginOptions) (st : HookState) (call : nat)
         (response : LoginResponse) (thrown : AuthError),
    isPending call st = true ->
    (exists st',
        step opts (Resolve call response) st = Some st'
        /\ submissionState st' = success
        /\ authError st' = authError st
        /\ trace st' = (trace st ++ if onSuccess opts then [OnSuccess response] else [])%list
        /\ isSubmittingRef st' = false
        /\ isPending call st' = false
        /\ values st' = values st /\ errors st' = errors st /\ touched st' = touched st)
    /\ if onSuccess opts
       then exists st',
              step opts (ResolveThrows call response thrown) st = Some st'
              /\ submissionState st' = error
              /\ authError st' = Some thrown
              /\ trace st'
                 = (trace st ++ OnSuccess response
                      :: if onError opts then [OnError thrown] else [])%list
              /\ isSubmittingRef st' = false
              /\ isPending call st' = false
              /\ values st' = values st /\ errors st' = errors st
              /\ touched st' = touched st
       else step opts (ResolveThrows call response thrown) st = None.
Proof.
  intros opts st call response thrown Hp.
  assert (Hgone : existsb (Nat.eqb call)
                    (filter (fun c => negb (c =? call)) (pending st)) = false).
  { induction (pending st) as [|c l IH]; simpl; auto.
    destruct (Nat.eqb_spec c call); simpl; auto.
    destruct (Nat.eqb_spec call c); simpl; auto; congruence. }
  split.
  - simpl. rewrite Hp. eexists. split; [reflexivity|].
    unfold loginResolved. destruct (onSuccess opts); simpl;
      repeat split; auto using app_nil_r.
  - simpl. rewrite Hp. destruct (onSuccess opts); simpl; [|reflexivity].
    eexists. split; [reflexivity|].
    unfold successCallbackThrew, loginRejected. destruct (onError opts); simpl;
      repeat split; auto; now rewrite <- app_assoc.
Qed.

(** Valid credentials and a successful answer: [idle], [submitting],
    [success] when the callback returns, [error] when it throws. *)
Lemma login_resolved_outcomes_witness :
  submissionState initialState = idle
  /\ submissionState submittedState = submitting
  /\ isPending 0 submittedState = true
  /\ (exists st2,
         step (mkUseLoginOptions true true false true)
           (Resolve 0 (mkLoginResponse "t" "r"
                         (mkAuthenticatedUser "1" "user@example.com" "U" user None)
                         (Some "/dashboard") 0))
           submittedState = Some st2
         /\ submissionState st2 = success
         /\ authError st2 = None)
  /\ (exists st2,
         step (mkUseLoginOptions true true false true)
           (ResolveThrows 0 (mkLoginResponse "t" "r"
                               (mkAuthenticatedUser "1" "user@example.com" "U" user None)
                               (Some "/dashboard") 0)
              (mkAuthError SERVER_ERROR "callback failed" None))
           submittedState = Some st2
         /\ submissionState st2 = error
         /\ authError st2 = Some (mkAuthError SERVER_ERROR "callback failed" None)).
Proof.
  repeat (split; [reflexivity|]).
  destruct (login_resolved_outcomes (mkUseLoginOptions true true false true)
              submittedState 0
              (mkLoginResponse "t" "r"
                 (mkAuthenticatedUser "1" "user@example.com" "U" user None)
                 (Some "/dashboard") 0)
              (mkAuthError SERVER_ERROR "callback failed" None) eq_refl)
    as [(st2 & Hstep & Hstate & Hauth & _) Hthrow].
  split.
  - exists st2. split; [exact Hstep|]. split; [exact Hstate|]. rewrite Hauth. reflexivity.
  - simpl in Hthrow. destruct Hthrow as (st3 & Hstep3 & Hstate3 & Hauth3 & _).
    exists st3. auto.
Defined.

(** X18.  In every state reached without calling [resetForm] while a call
    of [login] is outstanding, an authentication error is stored only when
    the submission state is [error], and none is stored while a call is
    outstanding; in particular [success] never shows a stale error. *)
Theorem authError_only_in_error_state :
  forall (opts : UseLoginOptions) (st : HookState),
    reachableBy noResetInFlight opts st ->
    match authError st with
    | Some _ => submissionState st = error /\ pending st = []
    | None => True
    end.
Proof.
  intros opts st Hreach.
  destruct (authError_invariant opts st Hreach) as [Hp Ha].
  destruct (authError st) as [e|] eqn:E; [|exact I].
  split; [apply Ha; discriminate|].
  destruct (pending st) as [|c l]; [reflexivity|].
  assert (H : Some e = None) by (apply Hp; discriminate). discriminate H.
Qed.

(** After a rejected submission. *)
Lemma authError_only_in_error_state_witness :
  exists st,
    run defaultOptions
      (fillForm "user@example.com" "password123"
       ++ [Submit; Reject 0 invalidCredentials])%list initialState = Some st
    /\ authError st = Some invalidCredentials
    /\ submissionState st = error
    /\ pending st = [].
Proof.
  exists (loginRejected defaultOptions invalidCredentials (settle 0 submittedState)).
  split; [reflexivity|]. split; [reflexivity|].
  assert (R : reachableBy noResetInFlight defaultOptions
                (loginRejected defaultOptions invalidCredentials (settle 0 submittedState))).
  { apply reach_step with (st := submittedState) (ev := Reject 0 invalidCredentials);
      [| intros H; discriminate H | reflexivity].
    apply reach_step with (st := filledState) (ev := Submit);
      [| intros H; discriminate H | reflexivity].
    apply reach_step
      with (st := setValues (mkLoginFormValues "user@example.com" "" false) initialState)
           (ev := Change Password (StringValue "password123"));
      [| intros H; discriminate H | reflexivity].
    apply reach_step
      with (st := initialState) (ev := Change Email (StringValue "user@example.com"));
      [apply reach_initial | intros H; discriminate H | reflexivity]. }
  exact (authError_only_in_error_state defaultOptions _ R).
Defined.

(** X19.  [resetForm] does not cancel an outstanding call: after it the
    state is [idle] with the flag clear, the form emptied and the call still
    outstanding.  When the call settles afterwards the machine leaves [idle]
    with the emptied form: for [success] when it resolves and the success
    callback is absent or returns, for [error] with the error stored when it
    rejects, and for [error] with the thrown value stored when it resolves
    and the success callback throws. *)
Theorem reset_does_not_cancel :
  forall (opts : UseLoginOptions) (st : HookState) (call : nat)
         (response : LoginResponse) (err thrown : AuthError),
    isPending call st = true ->
    exists st1,
      step opts Reset st = Some st1
      /\ submissionState st1 = idle
      /\ isSubmittingRef st1 = false
      /\ values st1 = INITIAL_FORM_VALUES
      /\ isPending call st1 = true
      /\ (exists st2,
             step opts (Resolve call response) st1 = Some st2
             /\ submissionState st2 = success
             /\ values st2 = INITIAL_FORM_VALUES
             /\ trace st2
                = (trace st ++ if onSuccess opts then [OnSuccess response] else [])%list)
      /\ (exists st2,
             step opts (Reject call err) st1 = Some st2
             /\ submissionState st2 = error
             /\ authError st2 = Some err
             /\ values st2 = INITIAL_FORM_VALUES)
      /\ if onSuccess opts
         then exists st2,
                step opts (ResolveThrows call response thrown) st1 = Some st2
                /\ submissionState st2 = error
                /\ authError st2 = Some thrown
                /\ values st2 = INITIAL_FORM_VALUES
         else step opts (ResolveThrows call response thrown) st1 = None.
Proof.
  intros opts st call response err thrown Hp.
  exists (resetForm st).
  assert (Hp' : isPending call (resetForm st) = true) by exact Hp.
  repeat (split; [reflexivity || exact Hp'|]).
  split; [|split].
  - simpl. rewrite Hp'. eexists. split; [reflexivity|].
    unfold loginResolved. destruct (onSuccess opts); simpl;
      repeat split; auto using app_nil_r.
  - simpl. rewrite Hp'. eexists. split; [reflexivity|].
    unfold loginRejected. destruct (onError opts); simpl; repeat split; auto.
  - simpl. rewrite Hp'. destruct (onSuccess opts); simpl; [|reflexivity].
    eexists. split; [reflexivity|].
    unfold successCallbackThrew, loginRejected. destruct (onError opts); simpl;
      repeat split; auto.
Qed.

(** A reset while the first call is outstanding, then its answer. *)
Lemma reset_does_not_cancel_witness :
  isPending 0 submittedState = true
  /\ exists st2,
       run (mkUseLoginOptions true false false true)
         [Reset;
          Resolve 0 (mkLoginResponse "t" "r"
                       (mkAuthenticatedUser "1" "user@example.com" "U" user None)
                       None 0)]
         submittedState = Some st2
       /\ submissionState st2 = success
       /\ values st2 = INITIAL_FORM_VALUES.
Proof.
  split; [reflexivity|].
  destruct (reset_does_not_cancel (mkUseLoginOptions true false false true)
              submittedState 0
              (mkLoginResponse "t" "r"
                 (mkAuthenticatedUser "1" "user@example.com" "U" user None)
                 None 0) invalidCredentials invalidCredentials eq_refl)
    as (st1 & H1 & _ & _ & _ & _ & (st2 & H2 & Hs & Hv & _) & _).
  exists st2. split; [|split; [exact Hs | exact Hv]].
  simpl in H1. injection H1 as <-. simpl. exact H2.
Defined.

Section ShownErrors.

Variable opts : UseLoginOptions.

(** Changes alone leave every field untouched. *)
Lemma onlyChanges_touched evs : forall st st',
  onlyChanges evs ->
  run opts evs st = Some st' ->
  touched st' = touched st.
Proof.
  induction evs as [|ev evs IH]; intros st st' Hall Hrun; simpl in Hrun.
  - now inversion Hrun.
  - inversion Hall as [|x l Hev Hrest]; subst.
    destruct ev as [f value| | | | | |]; try contradiction.
    simpl in Hrun. destruct (handleChange opts f value st) as [st1|] eqn:E; [|discriminate].
    rewrite (IH st1 st' Hrest Hrun).
    now destruct (handleChange_touched_authError opts _ _ _ _ E).
Qed.

End ShownErrors.

(** X20.  The hook's [hasFieldError] holds for a field exactly when its
    [getFieldError] gives a message; and as long as the user has only typed,
    with no blur and no submit, no message is given for any field, even when
    validation on change has stored errors. *)
Theorem untouched_fields_show_no_error :
  (forall (st : HookState) (f : Field),
      UseLoginView.hasFieldError st f = true <->
      exists m, UseLoginView.getFieldError st f = Some m)
  /\ (forall (opts : UseLoginOptions) (evs : list Event) (st : HookState) (f : Field),
         onlyChanges evs ->
         run opts evs initialState = Some st ->
         UseLoginView.getFieldError st f = None
         /\ UseLoginView.hasFieldError st f = false).
Proof.
  split.
  - intros st f. unfold UseLoginView.hasFieldError, UseLoginView.getFieldError,
      UseLoginView.isTouched.
    destruct (UseLoginView.touchedOf (touched st) f) as [[|]|]; simpl;
      try (split; [discriminate | intros [m H]; discriminate]).
    induction (errors st) as [|e l IH]; simpl.
    + split; [discriminate | intros [m H]; discriminate].
    + destruct (Field_eqb (field e) f); [split; eauto | exact IH].
  - intros opts evs st f Hall Hrun.
    pose proof (onlyChanges_touched opts evs _ _ Hall Hrun) as Ht.
    unfold UseLoginView.getFieldError, UseLoginView.hasFieldError, UseLoginView.isTouched.
    rewrite Ht. destruct f; auto.
Qed.

(** Typing an invalid email with validation on change stores an error that
    is not shown. *)
Lemma untouched_fields_show_no_error_witness :
  onlyChanges [Change Email (StringValue "not-an-email")]
  /\ run (mkUseLoginOptions false false true true)
       [Change Email (StringValue "not-an-email")] initialState
     = Some (setErrors [mkFieldError Email "Please enter a valid email address" format]
               (setValues (mkLoginFormValues "not-an-email" "" false) initialState))
  /\ UseLoginView.getFieldError
       (setErrors [mkFieldError Email "Please enter a valid email address" format]
          (setValues (mkLoginFormValues "not-an-email" "" false) initialState)) Email
     = None.
Proof.
  assert (Hall : onlyChanges [Change Email (StringValue "not-an-email")])
    by (repeat constructor).
  split; [exact Hall|]. split; [reflexivity|].
  destruct untouched_fields_show_no_error as [_ H].
  apply (H (mkUseLoginOptions false false true true) _ _ Email Hall eq_refl).
Defined.

(* ================================================================== *)
(** * The password visibility toggle *)

Import UsePasswordVisibility.

(** X21.  Starting hidden, after [n] toggles the password is visible exactly
    when [n] is odd; the input type is then [text] and the label of the
    toggle offers to hide, otherwise [password] and to show.  Two toggles
    restore any state. *)
Theorem toggles_parity :
  forall n : nat,
    isVisible (toggles n initialVisibility) = Nat.odd n
    /\ inputType (toggles n initialVisibility) = (if Nat.odd n then "text" else "password")
    /\ toggleAriaLabel (toggles n initialVisibility)
       = (if Nat.odd n then "Hide password" else "Show password")
    /\ forall v, toggleVisibility (toggleVisibility v) = v.
Proof.
  intros n.
  assert (H : forall m v, isVisible (toggles m v) = xorb (Nat.odd m) (isVisible v)).
  { induction m as [|m IH]; intros v; [now destruct v|].
    cbn [toggles]. rewrite IH, Nat.odd_succ, <- Nat.negb_odd.
    destruct v, (Nat.odd m); reflexivity. }
  assert (E : isVisible (toggles n initialVisibility) = Nat.odd n).
  { rewrite H. simpl. apply xorb_false_r. }
  unfold inputType, toggleAriaLabel. rewrite E.
  repeat split. intros v; now destruct v.
Qed.
